(** * magus-library: the reference parser and the Scryfall resolution client

    A shallow embedding of [src/services/parser.ts] and
    [src/services/scryfall.ts], and the properties of the specification
    checked against it.

    JavaScript strings are sequences of UTF-16 code units; they are modelled
    as lists of [N].  Regular expressions are run by a backtracking matcher
    that follows the ECMAScript pattern semantics (priority order of the
    alternatives, capture groups, lazy and greedy quantifiers). *)

From Stdlib Require Import ZArith NArith Lia Ascii.
From stdpp Require Import base option list gmap strings.

Set Default Proof Using "Type".
Local Open Scope N_scope.

(** ** Strings *)

(** A code unit written as an ASCII character. *)
Definition cu (a : ascii) : N := Ascii.N_of_ascii a.

(** A string literal as its sequence of code units. *)
Definition js (s : string) : list N := cu <$> String.list_ascii_of_string s.

Definition inRange (lo hi : ascii) (c : N) : bool :=
  (cu lo <=? c) && (c <=? cu hi).

(** [[0-9]] *)
Definition isDigit (c : N) : bool := inRange "0" "9" c.
(** [[a-zA-Z]] *)
Definition isLetter (c : N) : bool := inRange "a" "z" c || inRange "A" "Z" c.
(** [[a-zA-Z0-9]] *)
Definition isAlnum (c : N) : bool := isLetter c || isDigit c.
(** [[0-9a-f]] *)
Definition isLowerHex (c : N) : bool := inRange "0" "9" c || inRange "a" "f" c.
(** [[^/]] *)
Definition isNotSlash (c : N) : bool := negb (c =? cu "/").

(** LineTerminator: LF, CR, LS, PS. *)
Definition isLineTerminator (c : N) : bool :=
  (c =? 0x0A) || (c =? 0x0D) || (c =? 0x2028) || (c =? 0x2029).

(** [\s]: WhiteSpace and LineTerminator code units. *)
Definition isWhiteSpace (c : N) : bool :=
  (c =? 0x09) || (c =? 0x0B) || (c =? 0x0C) || (c =? 0x20) || (c =? 0xA0)
  || (c =? 0x1680) || ((0x2000 <=? c) && (c <=? 0x200A))
  || (c =? 0x202F) || (c =? 0x205F) || (c =? 0x3000) || (c =? 0xFEFF)
  || isLineTerminator c.

(** [\S] *)
Definition isNonSpace (c : N) : bool := negb (isWhiteSpace c).
(** [.] without the [s] flag *)
Definition isDot (c : N) : bool := negb (isLineTerminator c).

(** [String.prototype.substring] for [from <= to]. *)
Definition substring (s : list N) (from to : nat) : list N :=
  take (to - from) (drop from s).

(** [String.prototype.split] with a one-code-unit separator: the pieces
    between the separators, a trailing separator giving a last empty piece. *)
Fixpoint split (sep : N) (s : list N) : list (list N) :=
  match s with
  | [] => [[]]
  | c :: s' =>
    if c =? sep then [] :: split sep s'
    else match split sep s' with
         | [] => [[c]]
         | p :: ps => (c :: p) :: ps
         end
  end.

(** [Array.prototype.join] with a one-code-unit separator. *)
Fixpoint join (sep : N) (ps : list (list N)) : list N :=
  match ps with
  | [] => []
  | [p] => p
  | p :: ps' => p ++ sep :: join sep ps'
  end.

(** ** Regular expressions *)

(** The state of a match: the index reached in the input and the captures
    of the groups that took part. *)
Record MatchState := mkState {
  endIndex : nat;
  captures : gmap nat (list N)
}.

(** The pattern constructs the three patterns of the sources use. *)
Inductive Regex :=
| Empty
| CharSet (A : N → bool)
| Seq (r1 r2 : Regex)
| Quantified (r : Regex) (min : nat) (max : option nat) (greedy : bool)
| Group (parenIndex : nat) (r : Regex)
| AssertStart
| AssertEnd.

Infix "⋅" := Seq (at level 60, right associativity).

Definition chr (a : ascii) : Regex := CharSet (N.eqb (cu a)).
Definition star (r : Regex) : Regex := Quantified r 0 None true.
Definition lazy_star (r : Regex) : Regex := Quantified r 0 None false.
Definition plus (r : Regex) : Regex := Quantified r 1 None true.
Definition opt (r : Regex) : Regex := Quantified r 0 (Some 1%nat) true.
Definition rep (lo hi : nat) (r : Regex) : Regex := Quantified r lo (Some hi) true.

(** The capture groups inside a pattern. *)
Fixpoint groups (r : Regex) : list nat :=
  match r with
  | Seq r1 r2 => groups r1 ++ groups r2
  | Quantified r _ _ _ => groups r
  | Group i r => i :: groups r
  | _ => []
  end.

Definition advance (x : MatchState) : MatchState :=
  mkState (S (endIndex x)) (captures x).

Definition resetCaptures (parens : list nat) (x : MatchState) : MatchState :=
  mkState (endIndex x) (foldr delete (captures x) parens).

(** RepeatMatcher of the ECMAScript semantics, returning the successes in
    priority order.  An iteration beyond [min] that consumes nothing is
    dropped, and the captures of the quantified groups are reset before each
    iteration.  [fuel] bounds the number of iterations. *)
Fixpoint RepeatMatcher (m : MatchState → list MatchState) (parens : list nat)
    (greedy : bool) (fuel min : nat) (max : option nat) (x : MatchState)
    : list MatchState :=
  match fuel with
  | O => []
  | S fuel' =>
    if decide (max = Some O) then [x] else
    let d y :=
      if decide (min = O ∧ endIndex y = endIndex x) then []
      else RepeatMatcher m parens greedy fuel' (pred min) (pred <$> max) y in
    let xr := resetCaptures parens x in
    if decide (min ≠ O) then m xr ≫= d
    else if greedy then (m xr ≫= d) ++ [x]
    else x :: (m xr ≫= d)
  end.

Section Matcher.
Variable Input : list N.

(** The successes of a pattern from a state, in priority order. *)
Fixpoint run (r : Regex) (x : MatchState) : list MatchState :=
  match r with
  | Empty => [x]
  | CharSet A =>
    match Input !! endIndex x with
    | Some ch => if A ch then [advance x] else []
    | None => []
    end
  | Seq r1 r2 => run r1 x ≫= run r2
  | Quantified r min max greedy =>
    RepeatMatcher (run r) (groups r) greedy
      (S (min + (length Input - endIndex x))) min max x
  | Group i r =>
    y ← run r x;
    [mkState (endIndex y)
       (<[i := substring Input (endIndex x) (endIndex y)]> (captures y))]
  | AssertStart => if decide (endIndex x = O) then [x] else []
  | AssertEnd => if decide (endIndex x = length Input) then [x] else []
  end.

(** One attempt of the pattern at [lastIndex]: the match array, index 0
    the whole match and index [i] the capture of group [i] (absent when
    the group did not take part). *)
Definition matchAt (r : Regex) (lastIndex : nat) : option (gmap nat (list N)) :=
  y ← head (run r (mkState lastIndex ∅));
  Some (<[O := substring Input lastIndex (endIndex y)]> (captures y)).

(** RegExpBuiltinExec without the [g] and [y] flags: the first index from
    which the pattern matches. *)
Definition exec (r : Regex) : option (gmap nat (list N)) :=
  head (omap (matchAt r) (seq 0 (S (length Input)))).

(** [RegExp.prototype.test] *)
Definition test (r : Regex) : bool := bool_decide (is_Some (exec r)).
End Matcher.

(** [/^[0-9a-f]{8}-[0-9a-f]{4}-[0-9a-f]{4}-[0-9a-f]{4}-[0-9a-f]{12}$/] *)
Definition uuidRegexp : Regex :=
  AssertStart ⋅ rep 8 8 (CharSet isLowerHex) ⋅ chr "-"
    ⋅ rep 4 4 (CharSet isLowerHex) ⋅ chr "-"
    ⋅ rep 4 4 (CharSet isLowerHex) ⋅ chr "-"
    ⋅ rep 4 4 (CharSet isLowerHex) ⋅ chr "-"
    ⋅ rep 12 12 (CharSet isLowerHex) ⋅ AssertEnd.

(** [/^[a-zA-Z0-9]{3,5}\/[^/]+(?:\/(?:[a-zA-Z]{2,3})?)?$/] *)
Definition codeNumberRegexp : Regex :=
  AssertStart ⋅ rep 3 5 (CharSet isAlnum) ⋅ chr "/" ⋅ plus (CharSet isNotSlash)
    ⋅ opt (chr "/" ⋅ opt (rep 2 3 (CharSet isLetter))) ⋅ AssertEnd.

(** One trailing flag token: white space, a dash, letters, and optionally
    an equals sign with a run of non-space code units. *)
Definition flagToken : Regex :=
  CharSet isWhiteSpace ⋅ chr "-" ⋅ plus (CharSet isLetter)
    ⋅ opt (chr "=" ⋅ star (CharSet isNonSpace)).

(** The digits of the quantity, in group 1, and the white space after them. *)
Definition quantityPrefix : Regex :=
  Group 1 (plus (CharSet isDigit)) ⋅ plus (CharSet isWhiteSpace).

(** The pattern [regexp] of [parseString]: the optional quantity prefix, the
    lazy group 2 of the name, the optional group 3 of the trailing flag
    tokens, anchored at both ends. *)
Definition regexp : Regex :=
  AssertStart
    ⋅ opt quantityPrefix
    ⋅ Group 2 (lazy_star (CharSet isDot))
    ⋅ opt (Group 3 (star flagToken))
    ⋅ AssertEnd.

(** [String.prototype.match] with a pattern without the [g] flag. *)
Definition String_match (input : list N) (regexp : Regex) : option (gmap nat (list N)) :=
  exec input regexp.

(** ** Numbers *)

(** The Number values [parseInt] can return: integers that a double holds,
    the infinities and NaN.  The sign of zero is not kept. *)
Inductive Number :=
| NaN
| Infinity (negative : bool)
| Finite (z : Z).

Definition isNaN (n : Number) : bool :=
  match n with NaN => true | _ => false end.

(** The Number value for a mathematical integer: the nearest double, ties to
    the even significand, an infinity from [2^1024 - 2^970] on. *)
Definition toNumber (n : Z) : Number :=
  let a := Z.abs n in
  let e := (Z.log2 a - 52)%Z in
  if (e <=? 0)%Z then Finite n
  else
    let q := Z.shiftr a e in
    let r := Z.land a (Z.ones e) in
    let half := Z.shiftl 1 (e - 1) in
    let q' := if (half <? r)%Z || ((r =? half)%Z && Z.odd q) then (q + 1)%Z else q in
    let v := Z.shiftl q' e in
    if (Z.shiftl 1 1024 <=? v)%Z then Infinity (n <? 0)%Z
    else Finite (Z.sgn n * v).

(** The value of a code unit as a digit, when it is one. *)
Definition digitValue (c : N) : option Z :=
  if inRange "0" "9" c then Some (Z.of_N (c - cu "0"))
  else if inRange "a" "z" c then Some (Z.of_N (c - cu "a") + 10)%Z
  else if inRange "A" "Z" c then Some (Z.of_N (c - cu "A") + 10)%Z
  else None.

Definition isRadixDigit (R : Z) (c : N) : bool :=
  match digitValue c with Some v => (v <? R)%Z | None => false end.

Definition radixValue (R : Z) (digits : list N) : Z :=
  foldl (λ acc c, acc * R + default 0 (digitValue c))%Z 0%Z digits.

Fixpoint takeWhile {A} (p : A → bool) (l : list A) : list A :=
  match l with
  | x :: l' => if p x then x :: takeWhile p l' else []
  | [] => []
  end.

Fixpoint dropWhile {A} (p : A → bool) (l : list A) : list A :=
  match l with
  | x :: l' => if p x then dropWhile p l' else l
  | [] => []
  end.

(** [parseInt(string)] with no radix argument.  An absent argument is the
    string [undefined], which has no digits.  The mathematical value of the
    digits is taken exactly before it is rounded to a Number. *)
Definition parseInt (string : option (list N)) : Number :=
  let inputString := default (js "undefined") string in
  let str := dropWhile isWhiteSpace inputString in
  let sign := match str with
              | c :: _ => if c =? cu "-" then (-1)%Z else 1%Z
              | [] => 1%Z
              end in
  let str := match str with
             | c :: str' => if (c =? cu "+") || (c =? cu "-") then str' else str
             | [] => str
             end in
  let '(R, str) := match str with
                   | z :: x :: str' =>
                     if (z =? cu "0") && ((x =? cu "x") || (x =? cu "X"))
                     then (16%Z, str') else (10%Z, str)
                   | _ => (10%Z, str)
                   end in
  let digits := takeWhile (isRadixDigit R) str in
  match digits with
  | [] => NaN
  | _ => toNumber (sign * radixValue R digits)
  end.

(** ** The reference parser *)

(** The pieces of a flags segment between white space. *)
Fixpoint words (s : list N) : list (list N) :=
  match s with
  | [] => []
  | c :: s' =>
    if isWhiteSpace c then [] :: words s'
    else match words s' with
         | [] => [[c]]
         | w :: ws => (c :: w) :: ws
         end
  end.

(** One flag token: a dash, the letters of the name, and optionally an
    equals sign and the value. *)
Definition flagOfWord (w : list N) : option (list N * option (list N)) :=
  match w with
  | c :: w' =>
    if c =? cu "-" then
      let flagName := takeWhile isLetter w' in
      match flagName, dropWhile isLetter w' with
      | [], _ => None
      | _, [] => Some (flagName, None)
      | _, e :: value => if e =? cu "=" then Some (flagName, Some value) else None
      end
    else None
  | [] => None
  end.

(** Modelled from the spec: [parseFlags] of [parser.utils], which is not
    among the sources.  The segment, possibly absent, is a run of tokens
    separated by white space; a token is a dash, one or more letters and
    optionally an equals sign with the value up to the next white space.
    A flag with no value maps to an absent value, the last occurrence of a
    name wins, and what is not a token is left out. *)
Definition parseFlags (segment : option (list N)) : gmap (list N) (option (list N)) :=
  foldl (λ flags w,
           match flagOfWord w with
           | Some (flagName, value) => <[flagName := value]> flags
           | None => flags
           end)
        ∅ (words (default [] segment)).

Record ParsedCard := mkParsedCard {
  name : list N;
  quantity : Number;
  language : option (list N);
  customFlags : gmap (list N) (option (list N))
}.

(** [Map.prototype.get]: the value of the key, absent when the key is
    absent or its value is. *)
Definition Map_get (flags : gmap (list N) (option (list N))) (key : list N)
    : option (list N) :=
  mjoin (flags !! key).

(** [parseString] of [parser.ts]. *)
Definition parseString (input : list N) : option ParsedCard :=
  match String_match input regexp with
  | None => None
  | Some match_ =>
    let parsedQuantity := parseInt (match_ !! 1%nat) in
    let quantity := if isNaN parsedQuantity then Finite 1 else parsedQuantity in
    let flags := parseFlags (match_ !! 3%nat) in
    let language := Map_get flags (js "l") in
    let flags := delete (js "l") flags in
    Some {| name := default [] (match_ !! 2%nat);
            quantity := quantity;
            language := language;
            customFlags := flags |}
  end.

(** ** Promises *)

Inductive Error :=
| URIError
| FetchError (reason : nat).

(** A synchronous call returns or throws. *)
Inductive Completion (A : Type) :=
| Return (a : A)
| Throw (e : Error).
Arguments Return {A} a.
Arguments Throw {A} e.

Global Instance Completion_ret : MRet Completion := λ A a, Return a.
Global Instance Completion_bind : MBind Completion := λ A B f c,
  match c with
  | Return a => f a
  | Throw e => Throw e
  end.

Global Instance Completion_fmap : FMap Completion := λ A B f c,
  match c with
  | Return a => Return (f a)
  | Throw e => Throw e
  end.

(** How a promise ends.  [Unsettled] is a promise that has not settled
    within the steps the model was given. *)
Inductive outcome (A : Type) :=
| Fulfilled (a : A)
| Rejected (e : Error)
| Unsettled.
Arguments Fulfilled {A} a.
Arguments Rejected {A} e.
Arguments Unsettled {A}.

(** ** URI escaping *)

(** The code units [encodeURIComponent] leaves as they are. *)
Definition isUnescaped (c : N) : bool :=
  isAlnum c || bool_decide (c ∈ js "-_.!~*'()").

Definition isLeadingSurrogate (c : N) : bool := (0xD800 <=? c) && (c <=? 0xDBFF).
Definition isTrailingSurrogate (c : N) : bool := (0xDC00 <=? c) && (c <=? 0xDFFF).

Definition hexDigit (v : N) : N :=
  if v <? 10 then cu "0" + v else cu "A" + (v - 10).

(** The octets of a code point in UTF-8. *)
Definition utf8 (cp : N) : list N :=
  if cp <? 0x80 then [cp]
  else if cp <? 0x800 then [0xC0 + cp / 0x40; 0x80 + cp mod 0x40]
  else if cp <? 0x10000 then
    [0xE0 + cp / 0x1000; 0x80 + (cp / 0x40) mod 0x40; 0x80 + cp mod 0x40]
  else
    [0xF0 + cp / 0x40000; 0x80 + (cp / 0x1000) mod 0x40;
     0x80 + (cp / 0x40) mod 0x40; 0x80 + cp mod 0x40].

Definition percentEncode (cp : N) : list N :=
  utf8 cp ≫= λ octet, [cu "%"; hexDigit (octet / 16); hexDigit (octet mod 16)].

(** [encodeURIComponent]: the code units outside the unescaped set are
    replaced by the escaped octets of their code point; a surrogate without
    its pair throws. *)
Fixpoint encodeURIComponent (string : list N) : Completion (list N) :=
  match string with
  | [] => Return []
  | C :: rest =>
    if isUnescaped C then
      R ← encodeURIComponent rest; Return (C :: R)
    else if isTrailingSurrogate C then Throw URIError
    else if isLeadingSurrogate C then
      match rest with
      | second :: rest' =>
        if isTrailingSurrogate second then
          let cp := (C - 0xD800) * 0x400 + (second - 0xDC00) + 0x10000 in
          R ← encodeURIComponent rest'; Return (percentEncode cp ++ R)
        else Throw URIError
      | [] => Throw URIError
      end
    else
      R ← encodeURIComponent rest; Return (percentEncode C ++ R)
  end.

Section Client.
(** [Json] is a decoded response body and [T] an entry of a list body. *)
Context {Json T : Type}.

(** What a computation does before its promise settles, in order: the
    requests handed to the transport, and the calls a recording success
    transform notes. *)
Inductive Event :=
| Request (uri : list N)
| Transformed (listData : list T).

(** A promise, by what happens until it settles and how it settles. *)
Record Promise (A : Type) := mkPromise {
  trace : list Event;
  settled : outcome A
}.
Arguments mkPromise {A} trace settled.
Arguments trace {A} p.
Arguments settled {A} p.

(** [Promise.resolve] and [then]. *)
Definition resolve {A} (a : A) : Promise A := mkPromise [] (Fulfilled a).
Definition then_ {A B} (p : Promise A) (onFulfilled : A → Promise B) : Promise B :=
  match settled p with
  | Fulfilled a =>
    let q := onFulfilled a in mkPromise (trace p ++ trace q) (settled q)
  | Rejected e => mkPromise (trace p) (Rejected e)
  | Unsettled => mkPromise (trace p) Unsettled
  end.

Global Instance Promise_ret : MRet Promise := λ A a, resolve a.
Global Instance Promise_bind : MBind Promise := λ A B f p, then_ p f.
Global Instance Promise_fmap : FMap Promise := λ A B f p,
  then_ p (λ a, resolve (f a)).

(** The response of the transport: the ok indicator and the decoding of
    the body, which can fail. *)
Record Response := mkResponse {
  ok : bool;
  body : outcome Json
}.

(** The remote service behind the transport, and the fields of a list
    envelope as the annotation of [_getListFromApi] types them. *)
Class Remote := {
  transport : list N → outcome Response;
  data : Json → list T;
  has_more : Json → bool;
  next_page : Json → option (list N)
}.
Context `{!Remote}.

(** [fetch(uri)] *)
Definition fetch (uri : list N) : Promise Response :=
  mkPromise [Request uri] (transport uri).

(** [res.json()] *)
Definition Response_json (res : Response) : Promise Json :=
  mkPromise [] (body res).

(** Modelled from the spec: [Delayer.execute] of [delayer.ts], which is not
    among the sources.  The gate starts the operations in the order they
    were submitted and returns a promise of the operation's result; a
    failing operation fails that promise.  The spacing in time is not
    modelled. *)
Definition Delayer_execute {A} (operation : () → Promise A) : Promise A :=
  operation ().

(** [_callApi]: a not-ok response is an absent result. *)
Definition _callApi {U} (uri : list N) (successCallback : Json → Promise (option U))
    : Promise (option U) :=
  res ← Delayer_execute (λ _, fetch uri);
  if ok res then Response_json res ≫= successCallback
  else resolve None.

(** [_getListFromApi].  [fuel] bounds the number of pages followed. *)
Fixpoint _getListFromApi (fuel : nat) {U} (uri : list N)
    (successCallback : list T → Promise U) : Promise (option U) :=
  match fuel with
  | O => mkPromise [] Unsettled
  | S fuel' =>
    _callApi uri (λ json,
      let data_ := data json in
      match has_more json, next_page json with
      | true, Some next =>
        allData ← _getListFromApi fuel' next
                    (λ listData, resolve (data json ++ listData));
        match allData with
        | Some allData => Some <$> successCallback allData
        | None => resolve None
        end
      | _, _ => Some <$> successCallback data_
      end)
  end.

Definition SCRYFALL_API_URI : list N := js "https://api.scryfall.com".

Definition validLanguages : list (list N) :=
  js <$> ["en"; "es"; "fr"; "de"; "it"; "pt"; "ja"; "ko"; "ru"; "zhs"; "zht"]%string.

(** The request [getCard] builds for a reference. *)
Definition requestURI (parsedCard : ParsedCard) : Completion (list N) :=
  if test (name parsedCard) uuidRegexp then
    Return (SCRYFALL_API_URI ++ js "/cards/" ++ name parsedCard)
  else if test (name parsedCard) codeNumberRegexp then
    let cardCode :=
      match language parsedCard with
      | Some lang =>
        if bool_decide (lang ∈ validLanguages)
        then join (cu "/") (take 2 (split (cu "/") (name parsedCard)))
               ++ js "/" ++ lang
        else name parsedCard
      | None => name parsedCard
      end in
    Return (SCRYFALL_API_URI ++ js "/cards/" ++ cardCode)
  else
    escaped ← encodeURIComponent (name parsedCard);
    Return (SCRYFALL_API_URI ++ js "/cards/named/?fuzzy=" ++ escaped).

(** [getCard] *)
Definition getCard (parsedCard : ParsedCard) : Completion (Promise (option Json)) :=
  requestURI ← requestURI parsedCard;
  Return (_callApi requestURI (λ json, resolve (Some json))).

(** The bookkeeping of [Promise.all]: the values gathered so far, the
    number of promises still to be fulfilled, and the settlement of the
    combined promise once it has one. *)
Record AllState := mkAllState {
  values : list (option Json);
  remainingElementsCount : nat;
  combined : option (outcome (list (option Json)))
}.

(** Settling a promise that is already settled does nothing. *)
Definition settle (o : outcome (list (option Json))) (st : AllState) : AllState :=
  match combined st with
  | Some _ => st
  | None => mkAllState (values st) (remainingElementsCount st) (Some o)
  end.

(** The reaction of [Promise.all] to the settlement of the promise at
    [index]: a value is stored at the index of its promise and the
    combined promise is fulfilled with the values when none remains; a
    rejection rejects the combined promise. *)
Definition onSettled (promises : list (Promise (option Json))) (st : AllState)
    (index : nat) : AllState :=
  match settled <$> promises !! index with
  | Some (Fulfilled x) =>
    let values' := <[index := x]> (values st) in
    let remaining := pred (remainingElementsCount st) in
    let st' := mkAllState values' remaining (combined st) in
    if decide (remaining = O) then settle (Fulfilled values') st' else st'
  | Some (Rejected e) => settle (Rejected e) st
  | _ => st
  end.

(** [Promise.all].  [completion] is the order in which the promises
    settle: the indexes of the promises, first settled first. *)
Definition Promise_all (completion : list nat) (promises : list (Promise (option Json)))
    : Promise (list (option Json)) :=
  let n := length promises in
  let st0 := mkAllState (replicate n None) n
               (if decide (n = O) then Some (Fulfilled []) else None) in
  let st := foldl (onSettled promises) st0 completion in
  mkPromise (promises ≫= trace) (default Unsettled (combined st)).

(** [getCardsBatch] *)
Definition getCardsBatch (completion : list nat) (parsedCard : list ParsedCard)
    : Completion (Promise (list (option Json))) :=
  promises ← mapM getCard parsedCard;
  Return (Promise_all completion promises).
End Client.

Arguments Event : clear implicits.
Arguments Promise : clear implicits.
Arguments Response : clear implicits.
Arguments Remote : clear implicits.
Arguments mkPromise {T A} trace settled.
Arguments trace {T A} p.
Arguments settled {T A} p.

(** ** The matcher, declaratively *)

(** The iterations of a quantifier: [R] is one iteration of its body. *)
Inductive Iter (R : MatchState → MatchState → Prop) (parens : list nat)
    : nat → option nat → MatchState → MatchState → Prop :=
| Iter_stop min max x :
    min = O ∨ max = Some O → Iter R parens min max x x
| Iter_step min max x y z :
    max ≠ Some O →
    R (resetCaptures parens x) y →
    ¬ (min = O ∧ endIndex y = endIndex x) →
    Iter R parens (pred min) (pred <$> max) y z →
    Iter R parens min max x z.

Section Matches.
Variable Input : list N.

(** [Matches r x y]: the pattern [r] can lead from the state [x] to the
    state [y]. *)
Fixpoint Matches (r : Regex) (x y : MatchState) : Prop :=
  match r with
  | Empty => y = x
  | CharSet A => ∃ ch, Input !! endIndex x = Some ch ∧ A ch = true ∧ y = advance x
  | Seq r1 r2 => ∃ z, Matches r1 x z ∧ Matches r2 z y
  | Quantified r min max _ => Iter (Matches r) (groups r) min max x y
  | Group i r =>
    ∃ z, Matches r x z ∧
         y = mkState (endIndex z)
               (<[i := substring Input (endIndex x) (endIndex z)]> (captures z))
  | AssertStart => endIndex x = O ∧ y = x
  | AssertEnd => endIndex x = length Input ∧ y = x
  end.
End Matches.

(** The words a pattern without assertions matches.  The iterations of a
    quantifier beyond its minimum are not empty. *)
Fixpoint Lang (r : Regex) (w : list N) : Prop :=
  match r with
  | Empty => w = []
  | CharSet A => ∃ ch, w = [ch] ∧ A ch = true
  | Seq r1 r2 => ∃ u v, w = u ++ v ∧ Lang r1 u ∧ Lang r2 v
  | Quantified r min max _ =>
    ∃ ws, w = concat ws ∧ Forall (Lang r) ws ∧ (min ≤ length ws)%nat
          ∧ (∀ M, max = Some M → (length ws ≤ M)%nat)
          ∧ Forall (λ u, u ≠ []) (drop min ws)
  | Group _ r => Lang r w
  | AssertStart | AssertEnd => False
  end.

(** Patterns without assertions whose quantifiers have their bounds in
    order. *)
Fixpoint plain (r : Regex) : bool :=
  match r with
  | Seq r1 r2 => plain r1 && plain r2
  | Quantified r min max _ =>
    plain r && match max with Some M => bool_decide (min ≤ M)%nat | None => true end
  | Group _ r => plain r
  | AssertStart | AssertEnd => false
  | _ => true
  end.

(** The initial state of a match from the start of the input. *)
Definition start : MatchState := mkState O ∅.

(** ** The shapes of a name *)

Definition lengthIn {A} (lo hi : nat) (l : list A) : bool :=
  bool_decide (lo ≤ length l ≤ hi)%nat.

(** The unique-identifier shape: five groups of 8, 4, 4, 4 and 12 lowercase
    hexadecimal digits with a dash between them. *)
Definition uuid_shape (s : list N) : bool :=
  bool_decide (length <$> split (cu "-") s = [8; 4; 4; 4; 12]%nat)
  && forallb isLowerHex (concat (split (cu "-") s)).

(** A set code of 3 to 5 letters and digits, a collector number that is
    not empty, and a language code of 2 or 3 letters. *)
Definition isSetCode (p : list N) : bool := lengthIn 3 5 p && forallb isAlnum p.
Definition isNumber (p : list N) : bool := negb (bool_decide (p = [])).
Definition isLanguageCode (p : list N) : bool := lengthIn 2 3 p && forallb isLetter p.

(** The set/number code shape of [codeNumberRegexp]: a set code, a slash
    and a number without a slash, optionally followed by a slash, which
    the language code follows or not. *)
Definition code_shape (s : list N) : bool :=
  match split (cu "/") s with
  | [set; number] => isSetCode set && isNumber number
  | [set; number; lang] =>
    isSetCode set && isNumber number && (bool_decide (lang = []) || isLanguageCode lang)
  | _ => false
  end.

(** The set/number code shape in the words of the specification: a set
    code, a slash and a number without a slash, optionally followed by a
    slash and a language code of 2 or 3 letters. *)
Definition spec_code_shape (s : list N) : bool :=
  match split (cu "/") s with
  | [set; number] => isSetCode set && isNumber number
  | [set; number; lang] => isSetCode set && isNumber number && isLanguageCode lang
  | _ => false
  end.

(** ** Lines, for the statements *)

(** The digits a line starts with, when white space follows them. *)
Definition quantity_prefix (input : list N) : option (list N) :=
  match takeWhile isDigit input, dropWhile isDigit input with
  | (_ :: _) as digits, c :: _ => if isWhiteSpace c then Some digits else None
  | _, _ => None
  end.

(** What follows the quantity in the pattern of [parseString]: the name,
    the trailing flags and the end of the line. *)
Definition flagsPart : Regex := opt (Group 3 (star flagToken)).
Definition lineRest : Regex :=
  Group 2 (lazy_star (CharSet isDot)) ⋅ flagsPart ⋅ AssertEnd.

(** A Number that is zero or more. *)
Definition nonNegative (n : Number) : Prop :=
  match n with
  | Finite z => (0 ≤ z)%Z
  | Infinity negative => negative = false
  | NaN => False
  end.

(** A Number that is one or more. *)
Definition atLeastOne (n : Number) : Prop :=
  match n with
  | Finite z => (1 ≤ z)%Z
  | Infinity negative => negative = false
  | NaN => False
  end.

(** A line that is nothing but flag tokens, possibly none. *)
Definition flagsOnlyRegexp : Regex :=
  AssertStart ⋅ star flagToken ⋅ AssertEnd.

(** The patterns between the anchors, piece by piece. *)
Definition codeBody : list Regex :=
  [rep 3 5 (CharSet isAlnum); chr "/"; plus (CharSet isNotSlash);
   opt (chr "/" ⋅ opt (rep 2 3 (CharSet isLetter)))].

Definition uuidBody : list Regex :=
  [rep 8 8 (CharSet isLowerHex); chr "-";
   rep 4 4 (CharSet isLowerHex); chr "-";
   rep 4 4 (CharSet isLowerHex); chr "-";
   rep 4 4 (CharSet isLowerHex); chr "-";
   rep 12 12 (CharSet isLowerHex)].

(** ** Requests and page chains, for the statements *)

(** The request of [getCard] in the words of the specification: the
    unique-identifier shape first, then the set/number code shape with an
    optional slash and language code, then the fuzzy name. *)
Definition spec_requestURI (parsedCard : ParsedCard) : Completion (list N) :=
  if uuid_shape (name parsedCard) then
    Return (SCRYFALL_API_URI ++ js "/cards/" ++ name parsedCard)
  else if spec_code_shape (name parsedCard) then
    let cardCode :=
      match language parsedCard with
      | Some lang =>
        if bool_decide (lang ∈ validLanguages)
        then join (cu "/") (take 2 (split (cu "/") (name parsedCard)))
               ++ js "/" ++ lang
        else name parsedCard
      | None => name parsedCard
      end in
    Return (SCRYFALL_API_URI ++ js "/cards/" ++ cardCode)
  else
    escaped ← encodeURIComponent (name parsedCard);
    Return (SCRYFALL_API_URI ++ js "/cards/named/?fuzzy=" ++ escaped).

Section Chains.
Context {Json T : Type} `{!Remote Json T}.

(** A promise after the events [t]. *)
Definition after {A} (t : list (Event T)) (p : Promise T A) : Promise T A :=
  mkPromise (t ++ trace p) (settled p).

(** A success transform that computes [f] and notes its call. *)
Definition recording {U} (f : list T → U) (listData : list T) : Promise T U :=
  mkPromise [Transformed listData] (Fulfilled (f listData)).

(** The response to [uri] is ok and decodes to [json]. *)
Definition answers (uri : list N) (json : Json) : Prop :=
  ∃ res, transport uri = Fulfilled res ∧ ok res = true ∧ body res = Fulfilled json.

(** [follows uri pages last]: the pages from [uri] on are the envelopes
    [pages], each with has_more set and a next_page, and the next_page of
    the last of them is [last]. *)
Fixpoint follows (uri : list N) (pages : list Json) (last : list N) : Prop :=
  match pages with
  | [] => uri = last
  | json :: pages' =>
    answers uri json ∧ has_more json = true
    ∧ ∃ next, next_page json = Some next ∧ follows next pages' last
  end.

(** The requests of a chain that starts at [uri]. *)
Definition requests (uri : list N) (pages : list Json) : list (Event T) :=
  Request <$> uri :: omap next_page pages.

(** How a page can fail: a response that is not ok, or a fault of the
    transport or of the decoding. *)
Inductive failure :=
| NotOk
| Fault (e : Error).

Definition failure_of (o : outcome (Response Json)) : option failure :=
  match o with
  | Fulfilled res =>
    if ok res then
      match body res with
      | Rejected e => Some (Fault e)
      | _ => None
      end
    else Some NotOk
  | Rejected e => Some (Fault e)
  | Unsettled => None
  end.
End Chains.

(** ** The bookkeeping of [Promise.all], for the statements *)

(** The values [Promise.all] holds once the promises at the indexes
    [seen] are fulfilled with [results]. *)
Definition gathered {Json} (results : list (option Json)) (seen : list nat)
    : list (option Json) :=
  imap (λ i r, if decide (i ∈ seen) then r else None) results.

Definition all_inv {Json} (results : list (option Json)) (seen : list nat)
    (st : AllState (Json:=Json)) : Prop :=
  values st = gathered results seen
  ∧ remainingElementsCount st = (length results - length seen)%nat
  ∧ combined st = if decide (length seen = length results)
                  then Some (Fulfilled (gathered results seen)) else None.

(** ** A remote for the examples *)

Inductive MockJson :=
| MockCard (id : nat)
| MockList (entries : list nat) (more : bool) (next : option (list N)).

Definition mockOk (json : MockJson) : outcome (Response MockJson) :=
  Fulfilled (mkResponse true (Fulfilled json)).

(** Two cards, a list of three pages, a list whose second page is down,
    a list whose second page is not found, and a list whose only page
    announces more without a next page. *)
Definition mockTransport (uri : list N) : outcome (Response MockJson) :=
  if decide (uri = js "https://api.scryfall.com/cards/m3c/331/fr") then mockOk (MockCard 1)
  else if decide (uri = js "https://api.scryfall.com/cards/named/?fuzzy=Black%20Lotus")
  then mockOk (MockCard 2)
  else if decide (uri = js "https://api.scryfall.com/cards/named/?fuzzy=Storm%20Crow")
  then Rejected (FetchError 7)
  else if decide (uri = js "/list/1") then mockOk (MockList [1; 2]%nat true (Some (js "/list/2")))
  else if decide (uri = js "/list/2") then mockOk (MockList [3]%nat true (Some (js "/list/3")))
  else if decide (uri = js "/list/3") then mockOk (MockList [4; 5]%nat false None)
  else if decide (uri = js "/broken/1") then mockOk (MockList [1]%nat true (Some (js "/broken/2")))
  else if decide (uri = js "/broken/2") then Rejected (FetchError 7)
  else if decide (uri = js "/partial/1") then mockOk (MockList [1]%nat true (Some (js "/partial/2")))
  else if decide (uri = js "/open/1") then mockOk (MockList [1; 2]%nat true None)
  else Fulfilled (mkResponse false (Rejected (FetchError 0))).

Global Instance mockRemote : Remote MockJson nat := {|
  transport := mockTransport;
  data json := match json with MockList entries _ _ => entries | _ => [] end;
  has_more json := match json with MockList _ more _ => more | _ => false end;
  next_page json := match json with MockList _ _ next => next | _ => None end
|}.

Definition card (name : string) (language : option string) : ParsedCard :=
  mkParsedCard (js name) (Finite 1) (js <$> language) ∅.

(** The references and the pages of the examples. *)
Definition commandTower : ParsedCard := card "m3c/331/de" (Some "fr"%string).
Definition blackLotus : ParsedCard := card "Black Lotus" None.
Definition stormCrow : ParsedCard := card "Storm Crow" None.
Definition listPage1 : MockJson := MockList [1; 2]%nat true (Some (js "/list/2")).
Definition listPage2 : MockJson := MockList [3]%nat true (Some (js "/list/3")).
Definition listPage3 : MockJson := MockList [4; 5]%nat false None.
Definition brokenPage1 : MockJson := MockList [1]%nat true (Some (js "/broken/2")).
Definition partialPage1 : MockJson := MockList [1]%nat true (Some (js "/partial/2")).
Definition openPage1 : MockJson := MockList [1; 2]%nat true None.

(** ** Tactics *)

(** Facts on the character classes: comparisons of code units. *)
Ltac charclass :=
  unfold isAlnum, isLetter, isDigit, isLowerHex, isNotSlash, isNonSpace, isDot,
    isWhiteSpace, isLineTerminator, inRange, cu in *;
  cbn in *;
  rewrite ?negb_true_iff, ?negb_false_iff in *;
  rewrite ?orb_true_iff, ?orb_false_iff, ?andb_true_iff, ?andb_false_iff,
    ?N.leb_le, ?N.leb_gt, ?N.eqb_eq, ?N.eqb_neq in *;
  lia.

(** An index that is not among the groups of a pattern. *)
Ltac solve_notin :=
  repeat (apply not_elem_of_cons; split; [lia|]); apply not_elem_of_nil.

(** Closed statements, by evaluation. *)
Ltac by_computation := vm_compute; reflexivity.
Ltac by_decision :=
  match goal with |- ?P => apply (bool_decide_unpack P); vm_compute; exact I end.

(** * Names and their escaping *)

(** A string without a surrogate that lacks its pair, as
    [String.prototype.isWellFormed] tells. *)
Fixpoint isWellFormed (string : list N) : bool :=
  match string with
  | [] => true
  | C :: rest =>
    if isLeadingSurrogate C then
      match rest with
      | second :: rest' => isTrailingSurrogate second && isWellFormed rest'
      | [] => false
      end
    else if isTrailingSurrogate C then false
    else isWellFormed rest
  end.

(** The code units of an escaped string: the unescaped ones and the
    percent sign. *)
Definition isUriSafe (c : N) : bool := isUnescaped c || (c =? cu "%").

(** * The parts of a line *)

(** The state [k] code units after [x]. *)
Definition reach (x : MatchState) (k : nat) : MatchState :=
  mkState (endIndex x + k) (captures x).

(** What follows the quantity of a line and the white space after it, the
    whole line when it starts with no quantity. *)
Definition lineTail (input : list N) : list N :=
  match quantity_prefix input with
  | Some digits => dropWhile isWhiteSpace (drop (length digits) input)
  | None => input
  end.

(** The state of the match after a name of [k] code units that starts
    at [z]. *)
Definition named (input : list N) (z : MatchState) (k : nat) : MatchState :=
  mkState (endIndex z + k)
    (<[2%nat := substring input (endIndex z) (endIndex z + k)]> (captures z)).

(** A name without line terminator followed by flag tokens. *)
Definition nameAndFlags (rest nm fl : list N) : Prop :=
  rest = nm ++ fl ∧ Forall (λ c, isDot c = true) nm ∧ Lang flagsPart fl.

(** * The rest of the client *)

(** The fields of a card the client reads.  The type of the cards is
    declared in [types], which is not among the sources: it is taken as a
    parameter, with these two fields. *)
Class CardFields (Json T : Type) := {
  prints_search_uri : Json → list N;
  games : T → list (list N)
}.

(** The type of what returns nothing: its only value is [undefined]. *)
Abbreviation void := (option Empty_set).

Section Prints.
Context {Json T : Type} `{!Remote Json T, !CardFields Json T}.

(** [getCardPrintsFromCard].  [fuel] bounds the number of pages followed. *)
Definition getCardPrintsFromCard (fuel : nat) (scryfallCard : Json)
    (includeMultilingual onlyPaper : bool) : Promise T (option (list T)) :=
  let url :=
    if includeMultilingual
    then prints_search_uri scryfallCard ++ js "&include_multilingual=true"
    else prints_search_uri scryfallCard in
  _getListFromApi fuel url (λ cards,
    resolve (if onlyPaper
             then filter (λ card, js "paper" ∈ games card) cards
             else cards)).

(** [getCardsAndDo].  [I] is the type of the inputs, which extends
    [ParsedCard] by [parsed]; [completion] is the order in which the
    promises of the inputs settle. *)
Definition getCardsAndDo {I} (parsed : I → ParsedCard) (completion : list nat)
    (cards : list I) (callback : I → option Json → Promise T void)
    : Completion (Promise T (list void)) :=
  promises ← mapM (λ card,
    lookup ← getCard {| name := name (parsed card);
                        quantity := quantity (parsed card);
                        language := language (parsed card);
                        customFlags := customFlags (parsed card) |};
    Return (then_ lookup (λ scryfallCard, callback card scryfallCard))) cards;
  Return (Promise_all completion promises).

(** [getCardPrintsAndDo] *)
Definition getCardPrintsAndDo {I} (parsed : I → ParsedCard) (fuel : nat)
    (completion : list nat) (cards : list I)
    (callback : I → option (list T) → Promise T void)
    (includeMultilingual onlyPaper : bool)
    : Completion (Promise T (list void)) :=
  promises ← mapM (λ card,
    lookup ← getCard {| name := name (parsed card);
                        quantity := quantity (parsed card);
                        language := language (parsed card);
                        customFlags := customFlags (parsed card) |};
    Return (then_
              (then_ lookup (λ scryfallCard,
                 match scryfallCard with
                 | Some scryfallCard =>
                   getCardPrintsFromCard fuel scryfallCard includeMultilingual onlyPaper
                 | None => resolve None
                 end))
              (λ scryfallPrints, callback card scryfallPrints))) cards;
  Return (Promise_all completion promises).
End Prints.

(** ** For the statements *)

Section Lookups.
Context {Json T : Type} `{!Remote Json T, !CardFields Json T}.

(** How the single lookup at [uri] settles. *)
Definition lookupAt (uri : list N) : outcome (option Json) :=
  settled (_callApi (T:=T) uri (λ json, resolve (Some json))).


(** How the promise [getCardsAndDo] makes for one input settles. *)
Definition outcomeOfInput {I} (callback : I → option Json → Promise T void)
    (card : I) (uri : list N) : outcome void :=
  match lookupAt uri with
  | Fulfilled scryfallCard => settled (callback card scryfallCard)
  | Rejected e => Rejected e
  | Unsettled => Unsettled
  end.
(** How the promise [getCardPrintsAndDo] makes for one input settles. *)
Definition outcomeOfPrintsInput {I} (fuel : nat)
    (callback : I → option (list T) → Promise T void)
    (includeMultilingual onlyPaper : bool)
    (card : I) (uri : list N) : outcome void :=
  match lookupAt uri with
  | Fulfilled (Some scryfallCard) =>
    match settled (getCardPrintsFromCard fuel scryfallCard
                     includeMultilingual onlyPaper) with
    | Fulfilled scryfallPrints => settled (callback card scryfallPrints)
    | Rejected e => Rejected e
    | Unsettled => Unsettled
    end
  | Fulfilled None => settled (callback card None)
  | Rejected e => Rejected e
  | Unsettled => Unsettled
  end.
End Lookups.

(** The cards of the examples: the first one has its prints at [/list/1],
    the second one at [/broken/1]; the prints with an even number are on
    paper. *)
Global Instance mockCardFields : CardFields MockJson nat := {|
  prints_search_uri json :=
    match json with
    | MockCard 1 => js "/list/1"
    | MockCard 2 => js "/broken/1"
    | _ => js "/nothing"
    end;
  games n := if Nat.even n then [js "paper"; js "mtgo"] else [js "mtgo"]
|}.

(** A card whose name cannot be escaped. *)
Definition brokenName : ParsedCard := mkParsedCard [0xD83D] (Finite 1) None ∅.

(** A callback that notes the number of the found card. *)
Definition noting (card : ParsedCard) (found : option MockJson) : Promise nat void :=
  mkPromise [Transformed match found with Some (MockCard id) => [id] | _ => [] end]
            (Fulfilled None).

(** A callback that notes the prints it is given. *)
Definition notingPrints (card : ParsedCard) (prints : option (list nat))
    : Promise nat void :=
  mkPromise [Transformed (default [] prints)] (Fulfilled None).

(** A remote whose only page names itself as the next one. *)
Definition loopPage : MockJson := MockList [1]%nat true (Some (js "/loop")).
Definition loopRemote : Remote MockJson nat := {|
  transport uri := mockOk loopPage;
  data json := match json with MockList entries _ _ => entries | _ => [] end;
  has_more json := match json with MockList _ more _ => more | _ => false end;
  next_page json := match json with MockList _ _ next => next | _ => None end
|}.

(** * Properties of the matcher *)

Section MatcherTheory.
Variable Input : list N.
Implicit Types (x y z : MatchState) (r : Regex).

Lemma RepeatMatcher_sound m (R : MatchState → MatchState → Prop)
    parens greedy fuel min max x z :
  (∀ a b, b ∈ m a → R a b) →
  z ∈ RepeatMatcher m parens greedy fuel min max x →
  Iter R parens min max x z.
Proof.
  intros Hm. revert min max x z.
  induction fuel as [|fuel IH]; intros min max x z; simpl.
  { by intros ?%elem_of_nil. }
  destruct (decide (max = Some O)) as [->|Hmax].
  { intros ->%list_elem_of_singleton. apply Iter_stop; auto. }
  set (d := λ y, if decide (min = O ∧ endIndex y = endIndex x) then []
                 else RepeatMatcher m parens greedy fuel (pred min) (pred <$> max) y).
  assert (Hstep : ∀ z', z' ∈ m (resetCaptures parens x) ≫= d →
                        Iter R parens min max x z').
  { intros z' (y & Hz & Hy)%list_elem_of_bind. unfold d in Hz.
    destruct (decide _) as [|Hn]; [by apply elem_of_nil in Hz|].
    eapply Iter_step; eauto. }
  destruct (decide (min ≠ O)) as [Hmin|Hmin]; [auto|].
  assert (min = O) as -> by lia.
  destruct greedy.
  - intros [?| ->%list_elem_of_singleton]%elem_of_app; [auto|].
    apply Iter_stop; auto.
  - intros [->|?]%elem_of_cons; [|auto]. apply Iter_stop; auto.
Qed.

Lemma RepeatMatcher_complete m (R : MatchState → MatchState → Prop)
    parens greedy fuel min max x z :
  (∀ a b, (endIndex a ≤ length Input)%nat → R a b → b ∈ m a) →
  (∀ a b, (endIndex a ≤ length Input)%nat → R a b →
          (endIndex a ≤ endIndex b ≤ length Input)%nat) →
  Iter R parens min max x z →
  (endIndex x ≤ length Input)%nat →
  (min + (length Input - endIndex x) < fuel)%nat →
  z ∈ RepeatMatcher m parens greedy fuel min max x.
Proof.
  intros Hm Hb Hit. revert fuel.
  induction Hit as [min max x Hstop|min max x y z Hmax HR Hprog Hit IH];
    intros fuel Hx Hfuel; (destruct fuel as [|fuel]; [lia|]); simpl.
  - destruct (decide (max = Some O)); [apply list_elem_of_singleton; done|].
    destruct Hstop as [->|?]; [|done]. simpl.
    destruct greedy; [apply elem_of_app; right|]; by left.
  - rewrite decide_False by done.
    assert (endIndex x ≤ endIndex y ≤ length Input)%nat as Hy.
    { apply (Hb (resetCaptures parens x)); done. }
    assert (z ∈ m (resetCaptures parens x) ≫= λ y,
              if decide (min = O ∧ endIndex y = endIndex x) then []
              else RepeatMatcher m parens greedy fuel (pred min) (pred <$> max) y)
      as Hin.
    { apply list_elem_of_bind. exists y. split; [|by apply Hm].
      rewrite decide_False by done. apply IH; [lia|].
      destruct min; simpl in *; lia. }
    destruct (decide (min ≠ O)); [done|].
    destruct greedy; [apply elem_of_app; by left|by right].
Qed.

Lemma Iter_bounds (R : MatchState → MatchState → Prop) parens min max x z :
  (∀ a b, (endIndex a ≤ length Input)%nat → R a b →
          (endIndex a ≤ endIndex b ≤ length Input)%nat) →
  Iter R parens min max x z →
  (endIndex x ≤ length Input)%nat →
  (endIndex x ≤ endIndex z ≤ length Input)%nat.
Proof.
  intros Hb. induction 1 as [|min max x y z _ HR _ _ IH]; intros Hx; [lia|].
  apply (Hb (resetCaptures parens x)) in HR; [|done]. simpl in HR. lia.
Qed.

Lemma Matches_bounds r x y :
  Matches Input r x y → (endIndex x ≤ length Input)%nat →
  (endIndex x ≤ endIndex y ≤ length Input)%nat.
Proof.
  revert x y. induction r as [|A|r1 IH1 r2 IH2|r IH min max g|i r IH| |];
    intros x y; simpl.
  - intros ->; lia.
  - intros (ch & Hch & _ & ->) _. apply lookup_lt_Some in Hch. simpl. lia.
  - intros (z & H1 & H2) Hx. apply IH1 in H1; [|done]. apply IH2 in H2; lia.
  - intros Hit Hx. eapply Iter_bounds; eauto.
  - intros (z & H1 & ->) Hx. apply IH in H1; done.
  - intros [_ ->]; lia.
  - intros [_ ->]; lia.
Qed.

(** The matcher finds exactly the matches of the pattern. *)
Lemma run_sound r x y : y ∈ run Input r x → Matches Input r x y.
Proof.
  revert x y. induction r as [|A|r1 IH1 r2 IH2|r IH min max g|i r IH| |];
    intros x y; cbn [run Matches].
  - by intros ->%list_elem_of_singleton.
  - destruct (Input !! endIndex x) as [ch|] eqn:Hch; [|by intros ?%elem_of_nil].
    destruct (A ch) eqn:HA; [|by intros ?%elem_of_nil].
    intros ->%list_elem_of_singleton. eauto.
  - intros (z & H2 & H1)%list_elem_of_bind. eauto.
  - apply RepeatMatcher_sound. auto.
  - intros (z & ->%list_elem_of_singleton & H1)%list_elem_of_bind. eauto.
  - destruct (decide _); [|by intros ?%elem_of_nil].
    by intros ->%list_elem_of_singleton.
  - destruct (decide _); [|by intros ?%elem_of_nil].
    by intros ->%list_elem_of_singleton.
Qed.

Lemma run_complete r x y :
  (endIndex x ≤ length Input)%nat → Matches Input r x y → y ∈ run Input r x.
Proof.
  revert x y. induction r as [|A|r1 IH1 r2 IH2|r IH min max g|i r IH| |];
    intros x y Hx; cbn [run Matches].
  - intros ->. by left.
  - intros (ch & -> & -> & ->). by left.
  - intros (z & H1 & H2). apply list_elem_of_bind. exists z.
    split; [|by apply IH1]. apply IH2; [|done].
    apply Matches_bounds in H1; lia.
  - intros Hit. eapply RepeatMatcher_complete; [| |done|done|lia].
    + intros a b ? ?. by apply IH.
    + intros a b ? ?. by apply (Matches_bounds r).
  - intros (z & H1 & ->). apply list_elem_of_bind. exists z.
    split; [by left|by apply IH].
  - intros [? ->]. rewrite decide_True by done. by left.
  - intros [? ->]. rewrite decide_True by done. by left.
Qed.

Lemma lookup_resetCaptures parens x i :
  i ∉ parens → captures (resetCaptures parens x) !! i = captures x !! i.
Proof.
  induction parens as [|j parens IH]; simpl; [done|].
  intros [? ?]%not_elem_of_cons. rewrite lookup_delete_ne by done. auto.
Qed.

(** A pattern leaves the captures of the groups outside it as they were. *)
Lemma Matches_captures r x y i :
  Matches Input r x y → i ∉ groups r → captures y !! i = captures x !! i.
Proof.
  revert x y. induction r as [|A|r1 IH1 r2 IH2|r IH min max g|j r IH| |];
    intros x y; cbn [Matches groups].
  - by intros ->.
  - by intros (ch & _ & _ & ->).
  - intros (z & H1 & H2) [? ?]%not_elem_of_app.
    rewrite (IH2 _ _ H2), (IH1 _ _ H1); done.
  - intros Hit Hi. induction Hit as [|min max x y z _ HR _ _ IHit]; [done|].
    rewrite IHit, (IH _ _ HR) by done. by apply lookup_resetCaptures.
  - intros (z & H1 & ->) [? ?]%not_elem_of_cons. simpl.
    rewrite lookup_insert_ne by done. auto.
  - by intros [_ ->].
  - by intros [_ ->].
Qed.

(** The code units a match consumes are a word of the pattern. *)
Lemma Matches_Lang r x y :
  plain r → Matches Input r x y →
  ∃ w, Lang r w ∧ drop (endIndex x) Input = w ++ drop (endIndex y) Input
       ∧ endIndex y = (endIndex x + length w)%nat.
Proof.
  revert x y. induction r as [|A|r1 IH1 r2 IH2|r IH min max g|j r IH| |];
    intros x y Hp; cbn [Matches Lang plain] in *.
  - intros ->. exists (@nil N). split_and!; [done|done|(simpl in *; lia)].
  - intros (ch & Hch & HA & ->). exists [ch]. split_and!; [eauto| |(simpl in *; lia)].
    simpl. by apply drop_S.
  - apply andb_prop_elim in Hp as [Hp1 Hp2].
    intros (z & H1 & H2).
    destruct (IH1 _ _ Hp1 H1) as (u & Hu & Hdu & Heu).
    destruct (IH2 _ _ Hp2 H2) as (v & Hv & Hdv & Hev).
    exists (u ++ v). split_and!; [eauto| |rewrite length_app; (simpl in *; lia)].
    by rewrite Hdu, Hdv, (assoc_L (++)).
  - apply andb_prop_elim in Hp as [Hp Hwf].
    induction 1 as [min max x Hstop|min max x y z Hmax HR Hprog Hit IHit].
    + exists (@nil N). split_and!; [|done|(simpl in *; lia)]. exists (@nil (list N)). split_and!; try done.
      * destruct Hstop as [->| ->]; [(simpl in *; lia)|].
        apply bool_decide_unpack in Hwf. (simpl in *; lia).
      * intros M ->; (simpl in *; lia).
      * by rewrite drop_nil.
    + destruct (IH _ _ Hp HR) as (u & Hu & Hdu & Heu). simpl in Hdu, Heu.
      destruct IHit as (w & (ws & -> & Hws & Hmin & Hmx & Hne) & Hdw & Hew).
      { destruct max as [[|M]|]; simpl in *; [done| |done].
        apply bool_decide_unpack in Hwf. apply bool_decide_pack. (simpl in *; lia). }
      exists (u ++ concat ws). split_and!; [|by rewrite Hdu, Hdw, (assoc_L (++))
                                            |rewrite length_app; (simpl in *; lia)].
      exists (u :: ws). split_and!; [done|by constructor|(simpl in *; lia)| |].
      * intros M ->. destruct M; [done|]. specialize (Hmx M eq_refl). simpl. (simpl in *; lia).
      * destruct min as [|min]; simpl in *; [|done].
        constructor; [|done]. intros ->. apply Hprog. split; [done|]. simpl in *. (simpl in *; lia).
  - intros (z & H1 & ->). simpl. eauto.
  - done.
  - done.
Qed.

(** A word of the pattern that lies ahead in the input can be matched. *)
Lemma Lang_Matches r w x rest :
  plain r → Lang r w → drop (endIndex x) Input = w ++ rest →
  ∃ y, Matches Input r x y ∧ endIndex y = (endIndex x + length w)%nat.
Proof.
  revert w x rest. induction r as [|A|r1 IH1 r2 IH2|r IH min max g|j r IH| |];
    intros w x rest Hp; cbn [Matches Lang plain] in *.
  - intros -> _. exists x. split; [done|(simpl in *; lia)].
  - intros (ch & -> & HA) Hd. exists (advance x). split; [|(simpl in *; lia)].
    exists ch. split_and!; [|done..].
    rewrite <-(Nat.add_0_r (endIndex x)), <-lookup_drop, Hd. done.
  - apply andb_prop_elim in Hp as [Hp1 Hp2].
    intros (u & v & -> & Hu & Hv) Hd. rewrite <-(assoc_L (++)) in Hd.
    destruct (IH1 _ _ _ Hp1 Hu Hd) as (z & H1 & Hz).
    destruct (IH2 v z rest Hp2 Hv) as (y & H2 & Hy).
    { rewrite Hz, <-drop_drop, Hd, drop_app_length. done. }
    exists y. split; [eauto|]. rewrite length_app. (simpl in *; lia).
  - apply andb_prop_elim in Hp as [Hp Hwf].
    intros (ws & -> & Hws & Hmin & Hmx & Hne). clear Hwf.
    revert min max x Hmin Hmx Hne.
    induction Hws as [|u ws Hu Hws IHws]; intros min max x Hmin Hmx Hne Hd.
    + exists x. split; [|(simpl in *; lia)]. apply Iter_stop. left. simpl in Hmin. (simpl in *; lia).
    + simpl in Hd. rewrite <-(assoc_L (++)) in Hd.
      destruct (IH u (resetCaptures (groups r) x) _ Hp Hu Hd) as (y & Hy & Hey).
      simpl in Hey.
      destruct (IHws (pred min) (pred <$> max) y) as (z & Hz & Hez).
      { simpl in Hmin. (simpl in *; lia). }
      { intros M HM. destruct max as [M'|]; [|done]. simpl in HM.
        specialize (Hmx M' eq_refl). simpl in Hmx. simplify_eq. (simpl in *; lia). }
      { destruct min; simpl in *; [by inversion Hne|done]. }
      { rewrite Hey, <-drop_drop, Hd, drop_app_length. done. }
      exists z. split; [|simpl; rewrite length_app; (simpl in *; lia)].
      eapply Iter_step; [|done| |done].
      * intros ->. specialize (Hmx O eq_refl). simpl in Hmx. (simpl in *; lia).
      * intros [-> He]. simpl in Hne. inversion Hne as [|? ? Hu0 ?]; subst.
        destruct u; [done|]. simpl in *. (simpl in *; lia).
  - intros Hw Hd. destruct (IH _ x _ Hp Hw Hd) as (z & Hz & Hez).
    eexists. split; [eauto|]. done.
  - done.
  - done.
Qed.

Lemma Matches_foldr rs last x y :
  Matches Input (foldr Seq last rs) x y ↔
  ∃ z, Matches Input (foldr Seq Empty rs) x z ∧ Matches Input last z y.
Proof.
  revert x. induction rs as [|r rs IH]; intros x; simpl.
  - split; [eauto|]. by intros (z & -> & ?).
  - split.
    + intros (z & H1 & (z' & H2 & H3)%IH). eauto.
    + intros (z' & (z & H1 & H2) & H3). exists z. split; [done|].
      apply IH. eauto.
Qed.

Lemma plain_foldr rs : Forall (λ r, plain r) rs → plain (foldr Seq Empty rs).
Proof.
  induction 1 as [|r rs Hr _ IH]; simpl; [done|].
  apply andb_prop_intro. done.
Qed.

Lemma omap_None {A B} (f : A → option B) (l : list A) :
  (∀ a, a ∈ l → f a = None) → omap f l = [].
Proof.
  induction l as [|a l IH]; intros Hl; simpl; [done|].
  rewrite (Hl a) by left. apply IH. intros b ?. apply Hl. by right.
Qed.

(** A pattern that starts with [^] can only match from index 0. *)
Lemma exec_anchored r :
  exec Input (AssertStart ⋅ r) = matchAt Input (AssertStart ⋅ r) O.
Proof.
  unfold exec. cbn [seq omap list_omap].
  rewrite (omap_None _ (seq 1 _)).
  - by destruct (matchAt _ _ _).
  - intros i [Hi _]%elem_of_seq. unfold matchAt. cbn [run endIndex].
    rewrite decide_False by lia. done.
Qed.

Lemma matchAt_is_Some r i :
  is_Some (matchAt Input r i) ↔ ∃ y, y ∈ run Input r (mkState i ∅).
Proof.
  unfold matchAt. destruct (run Input r _) as [|y l]; simpl.
  - split; [by intros [? ?]|by intros [? ?%elem_of_nil]].
  - split; [intros _; exists y; by left|eauto].
Qed.

(** A pattern anchored at both ends tests whether the whole input is a
    word of what lies between the anchors. *)
Lemma test_anchored rs :
  Forall (λ r, plain r) rs →
  test Input (AssertStart ⋅ foldr Seq AssertEnd rs) = true ↔
  Lang (foldr Seq Empty rs) Input.
Proof.
  intros Hrs%plain_foldr. unfold test.
  rewrite bool_decide_eq_true, exec_anchored, matchAt_is_Some. split.
  - intros (y & (z & [_ ->] & Hy)%run_sound).
    apply Matches_foldr in Hy as (z & Hz & [Hend ->]).
    apply Matches_Lang in Hz as (w & Hw & Hd & _); [|done].
    rewrite Hend, drop_all, app_nil_r in Hd. simpl in Hd. by subst.
  - intros Hw.
    destruct (Lang_Matches _ Input (mkState O ∅) [] Hrs Hw) as (z & Hz & Hez).
    { by rewrite app_nil_r. }
    exists z. apply run_complete; [simpl; lia|].
    exists (mkState O ∅). split; [done|].
    apply Matches_foldr. exists z. split; [done|]. done.
Qed.
End MatcherTheory.

(** ** Words of the quantifiers *)

Lemma Lang_chars A min max g w :
  Lang (Quantified (CharSet A) min max g) w ↔
  Forall (λ c, A c = true) w ∧ (min ≤ length w)%nat
  ∧ (∀ M, max = Some M → (length w ≤ M)%nat).
Proof.
  cbn [Lang]. split.
  - intros (ws & -> & Hws & Hmin & Hmax & _).
    assert (Forall (λ c, A c = true) (concat ws) ∧ length (concat ws) = length ws)
      as [? Hlen].
    { clear Hmin Hmax. induction Hws as [|u ws (ch & -> & HA) _ [IH1 IH2]]; simpl.
      - done.
      - split; [by constructor|lia]. }
    rewrite Hlen. done.
  - intros (Hw & Hmin & Hmax). exists ((λ c, [c]) <$> w).
    rewrite length_fmap. split_and!; [|  |done|done|].
    + clear. induction w as [|c w IH]; simpl; [done|]. by f_equal.
    + clear Hmin Hmax. induction Hw; simpl; constructor; eauto.
    + apply Forall_drop, Forall_forall.
      intros u (c & -> & _)%list_elem_of_fmap. done.
Qed.

Lemma Lang_opt r w :
  Lang (opt r) w ↔ w = [] ∨ (Lang r w ∧ w ≠ []).
Proof.
  unfold opt. cbn [Lang]. split.
  - intros (ws & -> & Hws & _ & Hmax & Hne). specialize (Hmax 1%nat eq_refl).
    destruct ws as [|u [|? ?]]; simpl in *; [by left| |lia].
    right. rewrite app_nil_r. inversion Hws; inversion Hne; by subst.
  - intros [->|[Hw Hne]].
    + exists []. split_and!; simpl; try done. intros ? [= <-]. lia.
    + exists [w]. split_and!; simpl; try done.
      * by rewrite app_nil_r.
      * by constructor.
      * lia.
      * intros ? [= <-]. lia.
      * by constructor.
Qed.

Lemma Lang_chr a w : Lang (chr a) w ↔ w = [cu a].
Proof.
  cbn [chr Lang]. split.
  - by intros (ch & -> & ->%N.eqb_eq).
  - intros ->. exists (cu a). by rewrite N.eqb_refl.
Qed.

Lemma forallb_Forall {A} (p : A → bool) (l : list A) :
  forallb p l = true ↔ Forall (λ c, p c = true) l.
Proof.
  induction l as [|c l IH]; simpl; [done|].
  rewrite andb_true_iff, Forall_cons, IH. done.
Qed.

Lemma Lang_rep A lo hi w :
  Lang (rep lo hi (CharSet A)) w ↔ lengthIn lo hi w = true ∧ forallb A w = true.
Proof.
  unfold rep, lengthIn. rewrite Lang_chars, bool_decide_eq_true, forallb_Forall.
  split.
  - intros (? & ? & Hmax). specialize (Hmax hi eq_refl). done.
  - intros [[? ?] ?]. split_and!; [done..|]. by intros ? [= <-].
Qed.

Lemma Lang_app r1 r2 u v : Lang r1 u → Lang r2 v → Lang (r1 ⋅ r2) (u ++ v).
Proof. intros. exists u, v. done. Qed.

Lemma Lang_chr_cons a r w : Lang r w → Lang (chr a ⋅ r) (cu a :: w).
Proof. intros. apply (Lang_app _ _ [cu a]); [by apply Lang_chr|done]. Qed.

(** ** Splitting and joining *)

Section Split.
Variable sep : N.

Lemma split_no_sep a : Forall (λ c, c ≠ sep) a → split sep a = [a].
Proof.
  induction 1 as [|c a Hc _ IH]; simpl; [done|].
  apply N.eqb_neq in Hc. by rewrite Hc, IH.
Qed.

Lemma split_app_sep a t :
  Forall (λ c, c ≠ sep) a → split sep (a ++ sep :: t) = a :: split sep t.
Proof.
  induction 1 as [|c a Hc _ IH]; simpl.
  - by rewrite N.eqb_refl.
  - apply N.eqb_neq in Hc. by rewrite Hc, IH.
Qed.

Lemma split_pieces s : Forall (Forall (λ c, c ≠ sep)) (split sep s).
Proof.
  induction s as [|c s IH]; simpl; [by repeat constructor|].
  destruct (N.eqb_spec c sep) as [->|Hc]; [by constructor|].
  destruct (split sep s) as [|p ps]; [by repeat constructor|].
  inversion IH; subst. by repeat constructor.
Qed.

Lemma join_split s : join sep (split sep s) = s.
Proof.
  induction s as [|c s IH]; simpl; [done|].
  destruct (N.eqb_spec c sep) as [->|Hc].
  - simpl. destruct (split sep s) as [|p ps] eqn:Hs; [by destruct s|].
    by rewrite IH.
  - destruct (split sep s) as [|p ps] eqn:Hs; [by destruct s|].
    destruct ps; simpl in *; by rewrite <-IH.
Qed.
End Split.

(** ** The character classes *)

Lemma isAlnum_not_slash c : isAlnum c = true → c ≠ cu "/".
Proof. charclass. Qed.

Lemma isLetter_not_slash c : isLetter c = true → c ≠ cu "/".
Proof. charclass. Qed.

Lemma isLowerHex_not_dash c : isLowerHex c = true → c ≠ cu "-".
Proof. charclass. Qed.

Lemma isLowerHex_not_slash c : isLowerHex c = true → c ≠ cu "/".
Proof. charclass. Qed.

Lemma isNotSlash_spec c : isNotSlash c = true ↔ c ≠ cu "/".
Proof. charclass. Qed.

Lemma Forall_impl_bool {A} (p : A → bool) (Q : A → Prop) (l : list A) :
  (∀ c, p c = true → Q c) → forallb p l = true → Forall Q l.
Proof. intros HQ Hl%forallb_Forall. eapply Forall_impl; eauto. Qed.

(** ** The set/number code shape *)

Lemma Lang_codeBody s :
  Lang (foldr Seq Empty codeBody) s ↔
  ∃ a b t, s = a ++ cu "/" :: b ++ t ∧ isSetCode a = true
           ∧ Forall (λ c, c ≠ cu "/") b ∧ b ≠ []
           ∧ (t = [] ∨ ∃ l, t = cu "/" :: l ∧ (l = [] ∨ isLanguageCode l = true)).
Proof.
  unfold codeBody, isSetCode, isLanguageCode. cbn [foldr]. split.
  - intros (a & ? & -> & [Ha1 Ha2]%Lang_rep & ? & ? & -> & ->%Lang_chr
             & b & ? & -> & (Hb1 & Hb2 & _)%Lang_chars & t & ? & -> & Ht%Lang_opt & ->).
    exists a, b, t. rewrite app_nil_r. split_and!.
    + done.
    + by rewrite Ha1, Ha2.
    + eapply Forall_impl; [done|]. intros c. by apply isNotSlash_spec.
    + intros ->. simpl in Hb2. lia.
    + destruct Ht as [->|[(? & l & -> & ->%Lang_chr & Hl%Lang_opt) _]]; [by left|].
      right. exists l. split; [done|].
      destruct Hl as [->|[[Hl1 Hl2]%Lang_rep _]]; [by left|right].
      by rewrite Hl1, Hl2.
  - intros (a & b & t & -> & [Ha1 Ha2]%andb_true_iff & Hb & Hne & Ht).
    exists a, (cu "/" :: b ++ t). split_and!; [done|by apply Lang_rep|].
    exists [cu "/"], (b ++ t). split_and!; [done|by apply Lang_chr|].
    exists b, t. split_and!; [done| |].
    { apply Lang_chars. split_and!; [|destruct b; [done|simpl; lia]|done].
      eapply Forall_impl; [done|]. intros c. by apply isNotSlash_spec. }
    exists t, []. split_and!; [by rewrite app_nil_r| |done].
    apply Lang_opt. destruct Ht as [->|(l & -> & Hl)]; [by left|right].
    split; [|done]. exists [cu "/"], l. split_and!; [done|by apply Lang_chr|].
    apply Lang_opt. destruct Hl as [->|[Hl1 Hl2]%andb_true_iff]; [by left|right].
    split; [by apply Lang_rep|].
    intros ->. unfold lengthIn in Hl1. apply bool_decide_eq_true in Hl1.
    simpl in Hl1. lia.
Qed.

(** [codeNumberRegexp] tests the set/number code shape. *)
Lemma test_codeNumberRegexp s : test s codeNumberRegexp = code_shape s.
Proof.
  apply eq_true_iff_eq.
  change codeNumberRegexp with (AssertStart ⋅ foldr Seq AssertEnd codeBody).
  rewrite test_anchored by (repeat constructor). rewrite Lang_codeBody.
  unfold code_shape. split.
  - intros (a & b & t & -> & Ha & Hb & Hne & Ht).
    assert (Forall (λ c, c ≠ cu "/") a) as Ha'.
    { apply andb_true_iff in Ha as [_ Ha].
      eapply Forall_impl_bool; [|done]. apply isAlnum_not_slash. }
    assert (isNumber b = true) as Hnb.
    { unfold isNumber. by rewrite bool_decide_false. }
    rewrite split_app_sep by done.
    destruct Ht as [->|(l & -> & Hl)].
    + rewrite app_nil_r, split_no_sep by done. by rewrite Ha, Hnb.
    + rewrite split_app_sep by done. rewrite Ha, Hnb.
      destruct Hl as [->|Hl]; [done|].
      rewrite split_no_sep.
      * rewrite Hl. by rewrite orb_true_r.
      * apply andb_true_iff in Hl as [_ Hl].
        eapply Forall_impl_bool; [|done]. apply isLetter_not_slash.
  - intros Hs. pose proof (join_split (cu "/") s) as Hj.
    pose proof (split_pieces (cu "/") s) as Hp.
    destruct (split (cu "/") s) as [|a [|b [|l [|? ?]]]]; try done.
    + apply andb_true_iff in Hs as [Ha Hb]. simpl in Hj.
      exists a, b, []. rewrite app_nil_r. split_and!; [done|done| | |by left].
      * by inversion Hp as [|? ? _ [|? ? ? _]].
      * unfold isNumber in Hb. apply negb_true_iff, bool_decide_eq_false in Hb. done.
    + apply andb_true_iff in Hs as [[Ha Hb]%andb_true_iff Hl]. simpl in Hj.
      exists a, b, (cu "/" :: l). split_and!; [done|done| | |].
      * by inversion Hp as [|? ? _ [|? ? ? _]].
      * unfold isNumber in Hb. apply negb_true_iff, bool_decide_eq_false in Hb. done.
      * right. exists l. split; [done|].
        apply orb_true_iff in Hl as [Hl%bool_decide_eq_true|Hl]; auto.
Qed.

(** ** The unique-identifier shape *)

Lemma lengthIn_exact {A} n (l : list A) : lengthIn n n l = true ↔ length l = n.
Proof. unfold lengthIn. rewrite bool_decide_eq_true. lia. Qed.

Lemma Lang_uuidBody s :
  Lang (foldr Seq Empty uuidBody) s ↔
  ∃ g1 g2 g3 g4 g5,
    s = g1 ++ cu "-" :: g2 ++ cu "-" :: g3 ++ cu "-" :: g4 ++ cu "-" :: g5
    ∧ length <$> [g1; g2; g3; g4; g5] = [8; 4; 4; 4; 12]%nat
    ∧ forallb isLowerHex (concat [g1; g2; g3; g4; g5]) = true.
Proof.
  unfold uuidBody. cbn [foldr]. split.
  - intros (g1 & ? & -> & [L1 H1]%Lang_rep & ? & ? & -> & ->%Lang_chr
            & g2 & ? & -> & [L2 H2]%Lang_rep & ? & ? & -> & ->%Lang_chr
            & g3 & ? & -> & [L3 H3]%Lang_rep & ? & ? & -> & ->%Lang_chr
            & g4 & ? & -> & [L4 H4]%Lang_rep & ? & ? & -> & ->%Lang_chr
            & g5 & ? & -> & [L5 H5]%Lang_rep & ->).
    exists g1, g2, g3, g4, g5. rewrite app_nil_r.
    apply lengthIn_exact in L1, L2, L3, L4, L5. split_and!.
    + done.
    + simpl. by rewrite L1, L2, L3, L4, L5.
    + simpl. rewrite app_nil_r, !forallb_app. by rewrite H1, H2, H3, H4, H5.
  - intros (g1 & g2 & g3 & g4 & g5 & -> & [= L1 L2 L3 L4 L5] & Hh).
    simpl in Hh. rewrite app_nil_r, !forallb_app, !andb_true_iff in Hh.
    destruct Hh as (H1 & H2 & H3 & H4 & H5).
    apply lengthIn_exact in L1, L2, L3, L4, L5.
    repeat first
      [ apply Lang_app; [by apply Lang_rep|] | apply Lang_chr_cons ].
    rewrite <-(app_nil_r g5). apply Lang_app; [by apply Lang_rep|done].
Qed.

(** [uuidRegexp] tests the unique-identifier shape. *)
Lemma test_uuidRegexp s : test s uuidRegexp = uuid_shape s.
Proof.
  apply eq_true_iff_eq.
  change uuidRegexp with (AssertStart ⋅ foldr Seq AssertEnd uuidBody).
  rewrite test_anchored by (repeat constructor). rewrite Lang_uuidBody.
  unfold uuid_shape. rewrite andb_true_iff, bool_decide_eq_true. split.
  - intros (g1 & g2 & g3 & g4 & g5 & -> & Hlen & Hh).
    assert (Forall (Forall (λ c, c ≠ cu "-")) [g1; g2; g3; g4; g5]) as Hp.
    { simpl in Hh. rewrite app_nil_r, !forallb_app, !andb_true_iff in Hh.
      destruct Hh as (H1 & H2 & H3 & H4 & H5).
      repeat constructor;
        (eapply Forall_impl_bool; [apply isLowerHex_not_dash|done]). }
    inversion Hp as [|? ? P1 Hp1]; inversion Hp1 as [|? ? P2 Hp2];
      inversion Hp2 as [|? ? P3 Hp3]; inversion Hp3 as [|? ? P4 Hp4];
      inversion Hp4 as [|? ? P5 _]; subst.
    rewrite !split_app_sep, split_no_sep by done. done.
  - intros [Hlen Hh]. pose proof (join_split (cu "-") s) as Hj.
    destruct (split (cu "-") s) as [|g1 [|g2 [|g3 [|g4 [|g5 [|? ?]]]]]]; try done.
    exists g1, g2, g3, g4, g5. done.
Qed.

(** The shape of the specification is the one of the pattern, but for the
    names that end with the slash alone. *)
Lemma spec_code_shape_included s : spec_code_shape s = true → code_shape s = true.
Proof.
  unfold spec_code_shape, code_shape.
  destruct (split (cu "/") s) as [|a [|b [|l [|? ?]]]]; try done.
  intros [-> ->]%andb_true_iff. by rewrite orb_true_r.
Qed.

(** A name of the unique-identifier shape has no slash, hence is no
    set/number code. *)
Lemma uuid_shape_not_code s : uuid_shape s = true → code_shape s = false.
Proof.
  unfold uuid_shape, code_shape. rewrite andb_true_iff.
  intros [_ Hh]. pose proof (join_split (cu "-") s) as Hj.
  assert (Forall (λ c, c ≠ cu "/") s) as Hs.
  { rewrite <-Hj. apply (Forall_impl_bool _ _ _ isLowerHex_not_slash) in Hh.
    clear Hj. induction (split (cu "-") s) as [|p [|q ps] IH]; simpl in *.
    - done.
    - by rewrite app_nil_r in Hh.
    - apply Forall_app in Hh as [Hp Hh]. apply Forall_app. split; [done|].
      constructor; [done|]. by apply IH. }
  by rewrite split_no_sep.
Qed.

(** * The resolution client *)

Section ClientTheory.
Context {Json T : Type} `{!Remote Json T}.

Lemma then_resolve {A B} (a : A) (f : A → Promise T B) : then_ (resolve a) f = f a.
Proof. unfold then_, resolve. simpl. by destruct (f a). Qed.

(** A call of the remote service is one request, whatever the response. *)
Lemma callApi_identity uri :
  _callApi uri (λ json : Json, resolve (Some json)) =
  mkPromise [Request uri]
    match transport uri with
    | Fulfilled res =>
      if ok res then
        match body res with
        | Fulfilled json => Fulfilled (Some json)
        | Rejected e => Rejected e
        | Unsettled => Unsettled
        end
      else Fulfilled None
    | Rejected e => Rejected e
    | Unsettled => Unsettled
    end.
Proof.
  unfold _callApi, Delayer_execute, fetch, Response_json, mbind, Promise_bind, then_.
  simpl. destruct (transport uri) as [res| |]; simpl; [|done..].
  destruct (ok res); simpl; [|done]. by destruct (body res).
Qed.

Lemma getCard_requestURI parsedCard :
  getCard parsedCard =
  (λ uri, _callApi uri (λ json : Json, resolve (Some json))) <$> requestURI parsedCard.
Proof. unfold getCard. by destruct (requestURI parsedCard). Qed.

Lemma requestURI_shapes parsedCard :
  requestURI parsedCard =
  if uuid_shape (name parsedCard) then
    Return (SCRYFALL_API_URI ++ js "/cards/" ++ name parsedCard)
  else if code_shape (name parsedCard) then
    Return (SCRYFALL_API_URI ++ js "/cards/" ++
            match language parsedCard with
            | Some lang =>
              if bool_decide (lang ∈ validLanguages)
              then join (cu "/") (take 2 (split (cu "/") (name parsedCard)))
                     ++ js "/" ++ lang
              else name parsedCard
            | None => name parsedCard
            end)
  else
    escaped ← encodeURIComponent (name parsedCard);
    Return (SCRYFALL_API_URI ++ js "/cards/named/?fuzzy=" ++ escaped).
Proof. unfold requestURI. by rewrite test_uuidRegexp, test_codeNumberRegexp. Qed.

(** C1, as the code has it: the lookup is chosen on the name in a fixed
    order.  A name of the unique-identifier shape is requested at
    /cards/{name}; else a name of the set/number code shape, whose
    optional tail is a slash followed or not by a language code of 2 or 3
    letters, is requested at /cards/{code}, the code being the name or,
    under a recognized language, its first two components and that
    language; every other name is requested at /cards/named/?fuzzy= with
    the name escaped, and no request is made when the name cannot be
    escaped.  The lookup issues that one request. *)
Theorem getCard_strategy parsedCard :
  trace <$> getCard parsedCard =
  (λ uri, [Request uri]) <$>
    (if uuid_shape (name parsedCard) then
       Return (SCRYFALL_API_URI ++ js "/cards/" ++ name parsedCard)
     else if code_shape (name parsedCard) then
       Return (SCRYFALL_API_URI ++ js "/cards/" ++
               match language parsedCard with
               | Some lang =>
                 if bool_decide (lang ∈ validLanguages)
                 then join (cu "/") (take 2 (split (cu "/") (name parsedCard)))
                        ++ js "/" ++ lang
                 else name parsedCard
               | None => name parsedCard
               end)
     else
       escaped ← encodeURIComponent (name parsedCard);
       Return (SCRYFALL_API_URI ++ js "/cards/named/?fuzzy=" ++ escaped)).
Proof.
  rewrite <-requestURI_shapes, getCard_requestURI.
  destruct (requestURI parsedCard) as [uri|e]; simpl; [|done].
  by rewrite callApi_identity.
Qed.

(** C5: for a name of the set/number code shape and a recognized
    language, the request is made of the first two components of the name
    between slashes and of the language as the third one; a language
    in the name is replaced. *)
Theorem getCard_language_override parsedCard lang :
  code_shape (name parsedCard) = true →
  language parsedCard = Some lang →
  lang ∈ validLanguages →
  ∃ set number rest,
    split (cu "/") (name parsedCard) = set :: number :: rest ∧
    trace <$> getCard parsedCard =
    Return [Request (SCRYFALL_API_URI ++ js "/cards/"
                     ++ set ++ js "/" ++ number ++ js "/" ++ lang)].
Proof.
  intros Hcode Hlang Hvalid.
  assert (uuid_shape (name parsedCard) = false) as Huuid.
  { destruct (uuid_shape (name parsedCard)) eqn:Hu; [|done].
    apply uuid_shape_not_code in Hu. congruence. }
  rewrite getCard_requestURI, requestURI_shapes.
  rewrite Huuid, Hcode, Hlang, bool_decide_true by done.
  unfold code_shape in Hcode.
  destruct (split (cu "/") (name parsedCard)) as [|set [|number rest]]; [done..|].
  exists set, number, rest. split; [done|]. simpl.
  by rewrite callApi_identity, <-!(assoc_L (++)).
Qed.

(** C6: a response that is not ok makes the lookup resolve to an absent
    result, and a fault of the transport makes the promise of the lookup
    fail with that fault. *)
Theorem getCard_absent_or_fault parsedCard uri :
  requestURI parsedCard = Return uri →
  settled <$> getCard parsedCard =
  Return match transport uri with
         | Fulfilled res =>
           if ok res then
             match body res with
             | Fulfilled json => Fulfilled (Some json)
             | Rejected e => Rejected e
             | Unsettled => Unsettled
             end
           else Fulfilled None
         | Rejected e => Rejected e
         | Unsettled => Unsettled
         end.
Proof.
  intros Huri. rewrite getCard_requestURI, Huri. simpl.
  by rewrite callApi_identity.
Qed.

(** ** Pagination *)

Lemma after_after {A} t1 t2 (p : Promise T A) :
  after t1 (after t2 p) = after (t1 ++ t2) p.
Proof. unfold after. simpl. by rewrite (assoc_L (++)). Qed.

Lemma then_after {A B} t (p : Promise T A) (f : A → Promise T B) :
  then_ (after t p) f = after t (then_ p f).
Proof.
  unfold then_, after. simpl.
  destruct (settled p); simpl; by rewrite ?(assoc_L (++)).
Qed.

Lemma fmap_resolve {A B} (f : A → B) (a : A) :
  f <$> resolve (T:=T) a = resolve (f a).
Proof. unfold fmap, Promise_fmap. by rewrite then_resolve. Qed.

Lemma callApi_answers {U} uri json (k : Json → Promise T (option U)) :
  answers uri json → _callApi uri k = after [Request uri] (k json).
Proof.
  intros (res & Hres & Hok & Hbody).
  unfold _callApi, Delayer_execute, fetch, Response_json, mbind, Promise_bind, then_.
  simpl. rewrite Hres. simpl. rewrite Hok. simpl. rewrite Hbody. done.
Qed.

Lemma callApi_fails {U} uri flr (k : Json → Promise T (option U)) :
  failure_of (transport uri) = Some flr →
  _callApi uri k =
  mkPromise [Request uri]
    match flr with NotOk => Fulfilled None | Fault e => Rejected e end.
Proof.
  unfold failure_of, _callApi, Delayer_execute, fetch, Response_json, mbind,
    Promise_bind, then_. simpl.
  destruct (transport uri) as [res|e|]; simpl; [|by intros [= <-]|done].
  destruct (ok res); simpl; [|by intros [= <-]].
  destruct (body res); [done| |done]. by intros [= <-].
Qed.

Lemma requests_cons uri json next pages :
  next_page json = Some next →
  requests uri (json :: pages) = Request uri :: requests next pages.
Proof. unfold requests. simpl. by intros ->. Qed.

(** A chain of pages that ends with a page answered without a further
    page to follow: the transform is applied to the entries of all the
    pages, after the requests of the chain. *)
Lemma getList_chain pages : ∀ fuel uri last json U (cb : list T → Promise T U),
  follows uri pages last → answers last json →
  has_more json = false ∨ next_page json = None →
  (length pages < fuel)%nat →
  _getListFromApi fuel uri cb =
  after (requests uri pages) (Some <$> cb (concat (data <$> pages) ++ data json)).
Proof.
  induction pages as [|page pages IH];
    intros fuel uri last json U cb Hfollows Hlast Hend Hfuel;
    (destruct fuel as [|fuel]; [simpl in Hfuel; lia|]); simpl in Hfollows.
  - subst last. cbn [_getListFromApi]. rewrite (callApi_answers _ json) by done.
    simpl. destruct Hend as [-> | ->]; [done|]. by destruct (has_more json).
  - destruct Hfollows as (Hpage & Hmore & next & Hnext & Hfollows).
    cbn [_getListFromApi]. rewrite (callApi_answers _ page) by done.
    rewrite Hmore, Hnext.
    rewrite (IH fuel next last json) by (done || simpl in Hfuel; lia).
    rewrite fmap_resolve. unfold mbind, Promise_bind.
    rewrite then_after, then_resolve, after_after.
    erewrite requests_cons by done. simpl. by rewrite (assoc_L (++)).
Qed.

(** C3, as the code has it: when a page of the chain is answered with a
    response that is not ok, the whole fetch resolves to an absent result
    and the success transform is not applied; when the transport or the
    decoding of a page fails, the promise of the whole fetch fails with
    that fault. *)
Theorem getList_failing_page pages :
  ∀ fuel uri last flr U (cb : list T → Promise T U),
  follows uri pages last →
  failure_of (transport last) = Some flr →
  (length pages < fuel)%nat →
  _getListFromApi fuel uri cb =
  mkPromise (requests uri pages)
    match flr with
    | NotOk => Fulfilled None
    | Fault e => Rejected e
    end.
Proof.
  induction pages as [|page pages IH];
    intros fuel uri last flr U cb Hfollows Hlast Hfuel;
    (destruct fuel as [|fuel]; [simpl in Hfuel; lia|]); simpl in Hfollows.
  - subst last. cbn [_getListFromApi]. by rewrite (callApi_fails _ flr).
  - destruct Hfollows as (Hpage & Hmore & next & Hnext & Hfollows).
    cbn [_getListFromApi]. rewrite (callApi_answers _ page) by done.
    rewrite Hmore, Hnext.
    rewrite (IH fuel next last flr) by (done || simpl in Hfuel; lia).
    erewrite requests_cons by done.
    unfold mbind, Promise_bind, then_, after. simpl.
    destruct flr; simpl; by rewrite ?app_nil_r.
Qed.

(** C4: for a chain of pages that each announce more and name the next
    page, up to a last page, the entries of the pages are concatenated in
    the order of the pages, and the success transform is applied once, to
    the whole concatenation, after the last request. *)
Theorem getList_assembles fuel uri pages last json U
    (cb : list T → Promise T U) (f : list T → U) :
  follows uri pages last → answers last json →
  has_more json = false ∨ next_page json = None →
  (length pages < fuel)%nat →
  let allData := concat (data <$> pages) ++ data json in
  _getListFromApi fuel uri cb = after (requests uri pages) (Some <$> cb allData)
  ∧ _getListFromApi fuel uri (recording f) =
    mkPromise (requests uri pages ++ [Transformed allData])
              (Fulfilled (Some (f allData))).
Proof.
  intros Hfollows Hlast Hend Hfuel allData. split.
  - by eapply getList_chain.
  - by erewrite getList_chain.
Qed.

(** C10: a page that announces more but names no next page ends the
    chain: the success transform is applied to the entries gathered up to
    that page, no request follows, and the fetch resolves with what the
    transform returns. *)
Theorem getList_more_without_next fuel uri pages last json U
    (cb : list T → Promise T U) (f : list T → U) :
  follows uri pages last → answers last json →
  has_more json = true → next_page json = None →
  (length pages < fuel)%nat →
  let gathered := concat (data <$> pages) ++ data json in
  _getListFromApi fuel uri cb = after (requests uri pages) (Some <$> cb gathered)
  ∧ _getListFromApi fuel uri (recording f) =
    mkPromise (requests uri pages ++ [Transformed gathered])
              (Fulfilled (Some (f gathered))).
Proof.
  intros Hfollows Hlast _ Hnext Hfuel gathered. split.
  - eapply getList_chain; eauto.
  - erewrite getList_chain; eauto.
Qed.
End ClientTheory.

(** ** Batches *)

Section BatchTheory.
Context {Json T : Type} `{!Remote Json T}.
Implicit Types (results : list (option Json)) (seen todo : list nat).

Lemma gathered_nil results :
  gathered results [] = replicate (length results) None.
Proof.
  unfold gathered. apply list_eq. intros i. rewrite list_lookup_imap.
  destruct (results !! i) as [r|] eqn:Hi; simpl.
  - symmetry. apply lookup_replicate_2. by eapply lookup_lt_Some.
  - symmetry. apply lookup_ge_None. rewrite length_replicate.
    by apply lookup_ge_None.
Qed.

Lemma gathered_cons results seen i r :
  results !! i = Some r →
  <[i := r]> (gathered results seen) = gathered results (i :: seen).
Proof.
  intros Hi. unfold gathered. apply list_eq. intros j.
  rewrite !list_lookup_imap. destruct (decide (i = j)) as [<-|Hne].
  - rewrite list_lookup_insert_eq.
    + rewrite Hi. simpl. rewrite decide_True by left. done.
    + rewrite length_imap. by eapply lookup_lt_Some.
  - rewrite list_lookup_insert_ne, list_lookup_imap by done.
    destruct (results !! j) as [r'|]; simpl; [|done].
    destruct (decide (j ∈ seen)) as [Hj|Hj].
    + rewrite decide_True by (by right). done.
    + rewrite decide_False; [done|]. intros [?|?]%elem_of_cons; by simplify_eq.
Qed.

Lemma gathered_all results seen :
  (∀ i, (i < length results)%nat → i ∈ seen) → gathered results seen = results.
Proof.
  intros Hall. unfold gathered. apply list_eq. intros i.
  rewrite list_lookup_imap. destruct (results !! i) as [r|] eqn:Hi; simpl; [|done].
  rewrite decide_True; [done|]. apply Hall. by eapply lookup_lt_Some.
Qed.

Lemma onSettled_inv promises results seen st i :
  Forall2 (λ p r, settled p = Fulfilled r) promises results →
  all_inv results seen st →
  (i < length results)%nat → (length seen < length results)%nat →
  all_inv results (i :: seen) (onSettled (T:=T) promises st i).
Proof.
  intros Hall (Hvalues & Hcount & Hcombined) Hi Hlen.
  destruct (lookup_lt_is_Some_2 results i Hi) as [r Hr].
  destruct (Forall2_lookup_r _ _ _ _ _ Hall Hr) as (p & Hp & Hsettled).
  unfold onSettled. rewrite Hp. simpl. rewrite Hsettled.
  rewrite decide_False in Hcombined by lia.
  rewrite Hvalues, Hcount, (gathered_cons _ _ _ _ Hr).
  unfold all_inv. simpl.
  destruct (decide (pred (length results - length seen) = O)) as [Hz|Hz].
  - unfold settle. simpl. rewrite Hcombined. simpl.
    rewrite decide_True by lia. split_and!; [done|lia|done].
  - simpl. rewrite decide_False by lia. split_and!; [done|lia|done].
Qed.

Lemma foldl_onSettled_inv promises results todo : ∀ seen st,
  Forall2 (λ p r, settled p = Fulfilled r) promises results →
  all_inv results seen st →
  (∀ i, i ∈ todo → (i < length results)%nat) →
  (length seen + length todo ≤ length results)%nat →
  all_inv results (reverse todo ++ seen) (foldl (onSettled (T:=T) promises) st todo).
Proof.
  induction todo as [|i todo IH]; intros seen st Hall Hinv Hlt Hlen; simpl.
  { done. }
  rewrite reverse_cons, <-(assoc_L (++)). simpl. apply IH; [done| | |].
  - apply onSettled_inv; [done|done| |simpl in Hlen; lia]. apply Hlt. by left.
  - intros j Hj. apply Hlt. by right.
  - simpl in *. lia.
Qed.

(** [Promise.all] over promises that are all fulfilled: the values in the
    order of the promises, in whatever order they were fulfilled. *)
Lemma Promise_all_fulfilled completion promises results :
  completion ≡ₚ seq 0 (length promises) →
  Forall2 (λ p r, settled p = Fulfilled r) promises results →
  settled (Promise_all (T:=T) completion promises) = Fulfilled results.
Proof.
  intros Hperm Hall. pose proof (Forall2_length _ _ _ Hall) as Hlen.
  unfold Promise_all. cbn [settled].
  set (st0 := mkAllState _ _ _).
  assert (all_inv results [] st0) as Hinv.
  { unfold all_inv, st0. simpl. rewrite Hlen, gathered_nil, Nat.sub_0_r.
    split_and!; [done..|].
    destruct (decide (length results = O)) as [Hz|Hz].
    - rewrite decide_True by done. by rewrite Hz.
    - rewrite decide_False by done. done. }
  pose proof (Permutation_length Hperm) as Hcl. rewrite length_seq in Hcl.
  apply (foldl_onSettled_inv promises results completion) in Hinv as (_ & _ & ->);
    [|done| |simpl; lia].
  - rewrite app_nil_r, length_reverse, decide_True by lia. simpl.
    f_equal. apply gathered_all. intros i Hi.
    apply elem_of_reverse. rewrite Hperm. apply elem_of_seq. lia.
  - intros i Hi. rewrite Hperm in Hi. apply elem_of_seq in Hi. lia.
Qed.

Lemma mapM_getCard cards results :
  Forall2 (λ c r, settled <$> getCard c = Return (Fulfilled r)) cards results →
  ∃ promises,
    mapM getCard cards = Return promises
    ∧ Forall2 (λ (p : Promise T (option Json)) r, settled p = Fulfilled r)
        promises results.
Proof.
  induction 1 as [|c r cards results Hc _ (promises & Hmap & Hall)]; simpl.
  - exists []. by split.
  - destruct (getCard c) as [p|e] eqn:Hp; [|done]. simpl in Hc.
    exists (p :: promises). rewrite Hmap. simpl. split; [done|].
    constructor; [congruence|done].
Qed.

(** C9, as the code has it: when every single lookup resolves, to a
    record or to an absent result, the batch resolves to one result per
    reference, in the order of the references, the result at each
    position being the result of the single lookup of that reference,
    whatever the order in which the lookups complete. *)
Theorem getCardsBatch_in_order completion cards results :
  completion ≡ₚ seq 0 (length cards) →
  Forall2 (λ c r, settled <$> getCard c = Return (Fulfilled r)) cards results →
  settled <$> getCardsBatch completion cards = Return (Fulfilled results).
Proof.
  intros Hperm Hall.
  destruct (mapM_getCard _ _ Hall) as (promises & Hmap & Hsettled).
  unfold getCardsBatch. rewrite Hmap. simpl. f_equal.
  apply Promise_all_fulfilled; [|done].
  by rewrite (Forall2_length _ _ _ Hsettled), <-(Forall2_length _ _ _ Hall).
Qed.
End BatchTheory.

(** * The reference parser *)

(** ** Optional and lazy patterns, in priority order *)

Section Priority.
Variable Input : list N.
Implicit Types (x y z : MatchState) (r : Regex).

(** An optional pattern: first the matches of the pattern that consume
    something, then the state as it is. *)
Lemma run_opt r x :
  (endIndex x ≤ length Input)%nat →
  run Input (opt r) x =
  filter (λ y, endIndex y ≠ endIndex x)
         (run Input r (resetCaptures (groups r) x)) ++ [x].
Proof.
  intros Hx. unfold opt. cbn [run]. cbn [RepeatMatcher].
  rewrite decide_False by done. rewrite decide_False by lia. f_equal.
  assert (∀ y, y ∈ run Input r (resetCaptures (groups r) x) →
               (endIndex x ≤ endIndex y ≤ length Input)%nat) as Hb.
  { intros y Hy%run_sound%Matches_bounds; done. }
  induction (run Input r (resetCaptures (groups r) x)) as [|y l IH]; [done|].
  rewrite filter_cons. cbn [mbind list_bind]. rewrite IH.
  2:{ intros y' ?. apply Hb. by right. }
  f_equal. specialize (Hb y (list_elem_of_here _ _)).
  destruct (decide (endIndex y ≠ endIndex x)) as [Hne|Heq].
  - rewrite decide_False by tauto.
    destruct (0 + (length Input - endIndex x))%nat eqn:Hf; [lia|]. done.
  - rewrite decide_True by (split; [done|lia]). done.
Qed.

Lemma run_Seq r1 r2 x : run Input (r1 ⋅ r2) x = run Input r1 x ≫= run Input r2.
Proof. done. Qed.

Lemma run_Group i r x :
  run Input (Group i r) x =
  run Input r x ≫= λ y,
    [mkState (endIndex y)
       (<[i := substring Input (endIndex x) (endIndex y)]> (captures y))].
Proof. done. Qed.

(** A lazy star tries to stop first. *)
Lemma run_lazy_star r x : ∃ l, run Input (lazy_star r) x = x :: l.
Proof. unfold lazy_star. cbn [run]. cbn [RepeatMatcher]. simpl. eauto. Qed.

Lemma head_elem_of {A} (l : list A) (a : A) : head l = Some a → a ∈ l.
Proof. destruct l; [done|]. intros [= ->]. by left. Qed.
End Priority.

(** ** Prefixes *)

Section TakeWhile.
Context {A : Type} (p : A → bool).

Lemma takeWhile_dropWhile l : takeWhile p l ++ dropWhile p l = l.
Proof.
  induction l as [|c l IH]; simpl; [done|].
  destruct (p c); simpl; by rewrite ?IH.
Qed.

Lemma takeWhile_Forall l : Forall (λ c, p c = true) (takeWhile p l).
Proof.
  induction l as [|c l IH]; simpl; [done|].
  destruct (p c) eqn:Hc; by constructor.
Qed.

Lemma takeWhile_app_stop w c r :
  Forall (λ c, p c = true) w → p c = false →
  takeWhile p (w ++ c :: r) = w ∧ dropWhile p (w ++ c :: r) = c :: r.
Proof.
  intros Hw Hc. induction Hw as [|c' w Hc' _ [IH1 IH2]]; simpl.
  - by rewrite Hc.
  - by rewrite Hc', IH1, IH2.
Qed.

Lemma takeWhile_all w :
  Forall (λ c, p c = true) w → takeWhile p w = w.
Proof. induction 1 as [|c w Hc _ IH]; simpl; [done|]. by rewrite Hc, IH. Qed.
End TakeWhile.

Lemma isWhiteSpace_not_digit c : isWhiteSpace c = true → isDigit c = false.
Proof. charclass. Qed.

Lemma isNonSpace_isDot c : isNonSpace c = true → isDot c = true.
Proof. charclass. Qed.

Lemma isLetter_isNonSpace c : isLetter c = true → isNonSpace c = true.
Proof. charclass. Qed.

Lemma quantity_prefix_Some input digits :
  quantity_prefix input = Some digits →
  digits ≠ [] ∧ Forall (λ c, isDigit c = true) digits
  ∧ ∃ c r, input = digits ++ c :: r ∧ isWhiteSpace c = true.
Proof.
  unfold quantity_prefix.
  pose proof (takeWhile_dropWhile isDigit input) as Hsplit.
  pose proof (takeWhile_Forall isDigit input) as Hdigits.
  destruct (takeWhile isDigit input) as [|d ds]; [done|].
  destruct (dropWhile isDigit input) as [|c r]; [done|].
  destruct (isWhiteSpace c) eqn:Hc; [|done]. intros [= <-].
  split_and!; [done|done|]. exists c, r. done.
Qed.

Lemma quantity_prefix_intro digits c r :
  digits ≠ [] → Forall (λ c, isDigit c = true) digits → isWhiteSpace c = true →
  quantity_prefix (digits ++ c :: r) = Some digits.
Proof.
  intros Hne Hdigits Hc. unfold quantity_prefix.
  destruct (takeWhile_app_stop isDigit digits c r) as [-> ->];
    [done|by apply isWhiteSpace_not_digit|].
  destruct digits; [done|]. by rewrite Hc.
Qed.

Lemma Lang_plus_chars A w :
  Lang (plus (CharSet A)) w ↔ Forall (λ c, A c = true) w ∧ w ≠ [].
Proof.
  unfold plus. rewrite Lang_chars. split.
  - intros (? & Hlen & _). split; [done|]. intros ->. simpl in Hlen. lia.
  - intros [? Hne]. split_and!; [done| |done]. destruct w; [done|simpl; lia].
Qed.

Lemma Lang_star_chars A w :
  Lang (star (CharSet A)) w ↔ Forall (λ c, A c = true) w.
Proof.
  unfold star. rewrite Lang_chars. split; [by intros (? & _)|].
  intros ?. split_and!; [done|lia|done].
Qed.

Lemma Lang_lazy_star_chars A w :
  Lang (lazy_star (CharSet A)) w ↔ Forall (λ c, A c = true) w.
Proof.
  unfold lazy_star. rewrite Lang_chars. split; [by intros (? & _)|].
  intros ?. split_and!; [done|lia|done].
Qed.

(** A flag token is a white space followed by code units that are not. *)
Lemma Lang_flagToken t :
  Lang flagToken t →
  ∃ c t', t = c :: t' ∧ isWhiteSpace c = true ∧ Forall (λ c, isNonSpace c = true) t'.
Proof.
  unfold flagToken.
  intros (? & ? & -> & (c & -> & Hc) & ? & ? & -> & ->%Lang_chr
          & letters & value & -> & [Hletters _]%Lang_plus_chars & Hvalue%Lang_opt).
  exists c, (cu "-" :: letters ++ value). split_and!; [done|done|].
  constructor; [done|]. apply Forall_app. split.
  - eapply Forall_impl; [done|]. apply isLetter_isNonSpace.
  - destruct Hvalue as [->|[(? & v & -> & ->%Lang_chr & Hv%Lang_star_chars) _]];
      [done|].
    by constructor.
Qed.

(** The trailing flags, when there are some, start with a white space that
    the name of a flag follows. *)
Lemma Lang_flags_cons fl :
  Lang (opt (Group 3 (star flagToken))) fl → fl ≠ [] →
  ∃ c t' fl', fl = c :: t' ++ fl' ∧ isWhiteSpace c = true
              ∧ Forall (λ c, isDot c = true) t'
              ∧ Lang (opt (Group 3 (star flagToken))) fl'.
Proof.
  intros [->|[Hfl _]]%Lang_opt Hne; [done|].
  cbn [Lang star] in Hfl. destruct Hfl as (ws & -> & Hws & _ & _ & Hnes).
  destruct ws as [|t ws]; [done|].
  inversion Hws as [|? ? Ht Hws']; subst.
  inversion Hnes as [|? ? _ Hnes']; subst.
  destruct (Lang_flagToken _ Ht) as (c & t' & -> & Hc & Ht').
  exists c, t', (concat ws). split_and!; [done|done| |].
  - eapply Forall_impl; [done|]. apply isNonSpace_isDot.
  - apply Lang_opt. destruct (decide (concat ws = [])) as [->|Hne']; [by left|].
    right. split; [|done]. exists ws. split_and!; [done|done|lia|done|done].
Qed.

(** ** The pattern of a line *)

Section Line.
Variable input : list N.
Implicit Types (x y z : MatchState).

(** The name and the flags can be matched from [x] exactly when the rest
    of the line is a run without line terminator followed by flag tokens. *)
Lemma lineRest_words x :
  (endIndex x ≤ length input)%nat →
  (∃ y, Matches input lineRest x y) ↔
  ∃ nm fl, drop (endIndex x) input = nm ++ fl
           ∧ Forall (λ c, isDot c = true) nm ∧ Lang flagsPart fl.
Proof.
  intros Hx. unfold lineRest. cbn [Matches]. split.
  - intros (y & z & (z0 & Hname & ->) & z' & Hflags & Hend & ->).
    apply Matches_Lang in Hname as (nm & Hnm%Lang_lazy_star_chars & Hd & He); [|done].
    apply Matches_Lang in Hflags as (fl & Hfl & Hd' & He'); [|done].
    simpl in *. rewrite Hend, drop_all, app_nil_r in Hd'.
    exists nm, fl. by rewrite Hd, Hd'.
  - intros (nm & fl & Hd & Hnm & Hfl).
    destruct (Lang_Matches input (lazy_star (CharSet isDot)) nm x fl)
      as (z0 & Hz0 & He0); [done|by apply Lang_lazy_star_chars|done|].
    set (z := mkState (endIndex z0)
                (<[2%nat := substring input (endIndex x) (endIndex z0)]> (captures z0))).
    destruct (Lang_Matches input flagsPart fl z []) as (z' & Hz' & He');
      [done|done| |].
    { simpl. rewrite app_nil_r, He0, <-drop_drop, Hd, drop_app_length. done. }
    exists z', z. split; [by exists z0|]. exists z'. split_and!; [done| |done].
    apply (f_equal length) in Hd. rewrite length_drop, length_app in Hd.
    simpl in He'. lia.
Qed.

(** The quantity prefix matches the digits at the start of the line and
    captures them. *)
Lemma quantityPrefix_Matches x y :
  endIndex x = O → Matches input quantityPrefix x y →
  ∃ digits, quantity_prefix input = Some digits
            ∧ captures y !! 1%nat = Some digits ∧ endIndex y ≠ O.
Proof.
  intros Hx. unfold quantityPrefix. cbn [Matches].
  intros (z & (z0 & Hdigits & ->) & Hspace).
  apply Matches_Lang in Hdigits as (digits & [Hds Hne]%Lang_plus_chars & Hd & He);
    [|done].
  pose proof Hspace as Hcap%(Matches_captures _ _ _ _ 1%nat); [|apply not_elem_of_nil].
  apply Matches_Lang in Hspace as (ws & [Hws Hne']%Lang_plus_chars & Hd' & He');
    [|done].
  simpl in *. rewrite Hx in *. rewrite drop_0 in Hd. simpl in He.
  destruct ws as [|c ws]; [done|]. inversion Hws; subst.
  exists digits. split_and!.
  - rewrite Hd, Hd'. simpl. by apply quantity_prefix_intro.
  - rewrite Hcap, lookup_insert_eq. f_equal. unfold substring.
    rewrite drop_0, Nat.sub_0_r, Hd, He. by rewrite take_app_length.
  - destruct digits; [done|]. simpl in *. lia.
Qed.

Lemma quantityPrefix_exists x digits c r :
  endIndex x = O → digits ≠ [] → Forall (λ c, isDigit c = true) digits →
  isWhiteSpace c = true → input = digits ++ c :: r →
  ∃ y, Matches input quantityPrefix x y ∧ endIndex y = S (length digits).
Proof.
  intros Hx Hne Hds Hc Hinput.
  destruct (Lang_Matches input quantityPrefix (digits ++ [c]) x r) as (y & Hy & He).
  - done.
  - apply Lang_app; [by apply Lang_plus_chars|].
    apply Lang_plus_chars. split; [by constructor|done].
  - by rewrite Hx, drop_0, <-(assoc_L (++)).
  - exists y. split; [done|]. rewrite He, Hx, length_app. simpl. lia.
Qed.

(** When the line starts with a quantity and can be matched without
    taking it, what follows the digits and one white space can be
    matched as well. *)
Lemma rest_after_quantity digits c r nm fl :
  digits ≠ [] → Forall (λ c, isDigit c = true) digits → isWhiteSpace c = true →
  digits ++ c :: r = nm ++ fl →
  Forall (λ c, isDot c = true) nm → Lang flagsPart fl →
  ∃ nm' fl', r = nm' ++ fl' ∧ Forall (λ c, isDot c = true) nm' ∧ Lang flagsPart fl'.
Proof.
  intros Hne Hds Hc Heq Hnm Hfl.
  change (digits ++ c :: r) with (digits ++ [c] ++ r) in Heq.
  rewrite (assoc_L (++)) in Heq.
  apply app_eq_app in Heq as [l [[Hl ->]|[-> ->]]].
  - destruct (decide (l = [])) as [->|Hlne].
    { exists [], r. by split_and!. }
    destruct (Lang_flags_cons (l ++ r) Hfl) as (c' & t' & fl' & Heq' & Hc' & Ht' & Hfl').
    { by destruct l. }
    apply app_eq_app in Hl as [l' [[-> ->]|[-> Hl]]].
    + destruct l' as [|d l'].
      * simpl in Heq'. injection Heq' as <- ->. by exists t', fl'.
      * simpl in Heq'. injection Heq' as <- _.
        apply Forall_app in Hds as [_ Hd]. inversion Hd; subst.
        apply isWhiteSpace_not_digit in Hc'. congruence.
    + destruct l' as [|? l']; simpl in Hl.
      * subst l. simpl in Heq'. injection Heq' as <- ->. by exists t', fl'.
      * injection Hl as _ Hl. by destruct l', l.
  - exists l, fl. split_and!; [done| |done].
    by apply Forall_app in Hnm as [_ ?].
Qed.
End Line.

Section LineHead.
Variable input : list N.
Implicit Types (x y z : MatchState).

(** The matches of the pattern of a line, in priority order: first those
    that take the quantity, then those that do not. *)
Lemma regexp_matches :
  run input regexp start =
  (filter (λ y, endIndex y ≠ O) (run input quantityPrefix start)
     ≫= run input lineRest)
  ++ run input lineRest start.
Proof.
  change regexp with (AssertStart ⋅ opt quantityPrefix ⋅ lineRest).
  cbn [run]. unfold start at 1. cbn [endIndex]. rewrite decide_True by done.
  cbn [mbind list_bind]. rewrite app_nil_r.
  rewrite run_opt by (simpl; lia). rewrite bind_app.
  assert (resetCaptures (groups quantityPrefix) start = start) as ->.
  { unfold resetCaptures, start. simpl. by rewrite delete_empty. }
  f_equal. cbn [mbind list_bind]. by rewrite app_nil_r.
Qed.

Lemma taken_group1 y :
  y ∈ filter (λ y, endIndex y ≠ O) (run input quantityPrefix start)
        ≫= run input lineRest →
  ∃ digits, quantity_prefix input = Some digits ∧ captures y !! 1%nat = Some digits.
Proof.
  intros (y1 & Hy%run_sound & [_ Hy1%run_sound]%list_elem_of_filter)%list_elem_of_bind.
  apply quantityPrefix_Matches in Hy1 as (digits & Hq & Hcap & _); [|done].
  exists digits. split; [done|].
  rewrite (Matches_captures _ _ _ _ 1%nat Hy); [done|].
  simpl. solve_notin.
Qed.

Lemma taken_when_possible digits y :
  quantity_prefix input = Some digits →
  y ∈ run input lineRest start →
  ∃ y', y' ∈ filter (λ y, endIndex y ≠ O) (run input quantityPrefix start)
               ≫= run input lineRest.
Proof.
  intros (Hne & Hds & c & r & Hinput & Hc)%quantity_prefix_Some Hy%run_sound.
  assert (∃ y, Matches input lineRest start y) as Hrest by eauto.
  apply lineRest_words in Hrest as (nm & fl & Hd & Hnm & Hfl); [|simpl; lia].
  simpl in Hd. rewrite drop_0 in Hd.
  destruct (rest_after_quantity digits c r nm fl) as (nm' & fl' & Hr & Hnm' & Hfl');
    [done|done|done|by rewrite <-Hinput|done|done|].
  destruct (quantityPrefix_exists input start digits c r) as (y1 & Hy1 & He1);
    [done..|].
  pose proof (Matches_bounds _ _ _ _ Hy1) as Hb. simpl in Hb.
  assert (∃ y', Matches input lineRest y1 y') as [y' Hy'].
  { apply lineRest_words; [lia|]. exists nm', fl'. split_and!; [|done..].
    rewrite He1, Hinput. rewrite <-Hr.
    change (S (length digits)) with (1 + length digits)%nat.
    rewrite Nat.add_comm, <-drop_drop, drop_app_length. done. }
  exists y'. apply list_elem_of_bind. exists y1. split.
  - apply run_complete; [lia|done].
  - apply list_elem_of_filter. split; [lia|]. by apply run_complete; [simpl; lia|].
Qed.

(** Group 1 of the first match holds the digits of the quantity prefix of
    the line, and is absent when the line has no such prefix. *)
Lemma regexp_group1 y :
  head (run input regexp start) = Some y →
  captures y !! 1%nat = quantity_prefix input.
Proof.
  rewrite regexp_matches.
  set (taken := filter _ _ ≫= _). intros Hhead.
  assert (y ∈ taken ∨ (taken = [] ∧ y ∈ run input lineRest start)) as [Hy|[Hnil Hy]].
  { destruct taken as [|y' l] eqn:Ht.
    - right. split; [done|]. by apply head_elem_of.
    - left. simpl in Hhead. injection Hhead as ->. by left. }
  - apply taken_group1 in Hy as (digits & -> & ->). done.
  - destruct (quantity_prefix input) as [digits|] eqn:Hq.
    + destruct (taken_when_possible digits y Hq Hy) as [y' Hy'].
      fold taken in Hy'. rewrite Hnil in Hy'. by apply elem_of_nil in Hy'.
    + apply run_sound in Hy.
      rewrite (Matches_captures _ _ _ _ 1%nat Hy); [done|].
      simpl. solve_notin.
Qed.

(** Group 2 takes part in every match: the name is always a string. *)
Lemma regexp_group2 y :
  head (run input regexp start) = Some y → is_Some (captures y !! 2%nat).
Proof.
  rewrite regexp_matches. intros [Hy|Hy]%head_elem_of%elem_of_app.
  - apply list_elem_of_bind in Hy as (y1 & Hy%run_sound & _). revert Hy.
    unfold lineRest. cbn [Matches]. intros (z & (z0 & _ & ->) & Hflags).
    rewrite (Matches_captures _ (flagsPart ⋅ AssertEnd) _ _ 2%nat Hflags).
    + simpl. by rewrite lookup_insert_eq.
    + simpl. solve_notin.
  - apply run_sound in Hy. revert Hy.
    unfold lineRest. cbn [Matches]. intros (z & (z0 & _ & ->) & Hflags).
    rewrite (Matches_captures _ (flagsPart ⋅ AssertEnd) _ _ 2%nat Hflags).
    + simpl. by rewrite lookup_insert_eq.
    + simpl. solve_notin.
Qed.

(** On a line of flag tokens only, the first match has an empty name. *)
Lemma regexp_flags_only :
  Lang (star flagToken) input →
  ∃ y, head (run input regexp start) = Some y
       ∧ captures y !! 2%nat = Some [].
Proof.
  intros Hflags.
  assert (Lang flagsPart input) as Hpart.
  { apply Lang_opt. destruct (decide (input = [])); [by left|by right]. }
  assert (quantity_prefix input = None) as Hq.
  { destruct (decide (input = [])) as [->|Hne]; [done|].
    destruct (Lang_flags_cons _ Hpart Hne) as (c & t' & fl' & -> & Hc & _).
    unfold quantity_prefix. simpl.
    by rewrite (isWhiteSpace_not_digit c Hc). }
  rewrite regexp_matches.
  set (taken := filter _ _ ≫= _).
  assert (taken = []) as ->.
  { destruct taken as [|y' l] eqn:Ht; [done|].
    assert (y' ∈ taken) as Hy' by (rewrite Ht; left).
    apply taken_group1 in Hy' as (digits & Hq' & _). congruence. }
  rewrite app_nil_l. unfold lineRest.
  rewrite run_Seq, run_Group.
  destruct (run_lazy_star input (CharSet isDot) start) as [l ->].
  cbn [mbind list_bind app].
  set (named := mkState (endIndex start) _).
  destruct (Lang_Matches input flagsPart input named []) as (z & Hz & He);
    [done|done|by rewrite app_nil_r|].
  assert (z ∈ run input (flagsPart ⋅ AssertEnd) named) as Hin.
  { apply run_complete; [simpl; lia|]. exists z. simpl in He. by split_and!. }
  destruct (run input (flagsPart ⋅ AssertEnd) named) as [|y0 l0] eqn:Hrun;
    [by apply elem_of_nil in Hin|].
  exists y0. split; [done|].
  assert (y0 ∈ run input (flagsPart ⋅ AssertEnd) named) as Hy0%run_sound
    by (rewrite Hrun; left).
  rewrite (Matches_captures _ _ _ _ 2%nat Hy0).
  - unfold named. simpl. by rewrite lookup_insert_eq.
  - simpl. solve_notin.
Qed.
End LineHead.

(** ** Numbers *)

Lemma toNumber_exact v : (0 ≤ v < 2 ^ 53)%Z → toNumber v = Finite v.
Proof.
  intros [Hv Hlt]. unfold toNumber. rewrite Z.abs_eq by done.
  assert (Z.log2 v ≤ 52)%Z as Hlog.
  { destruct (decide (v = 0%Z)) as [->|Hne]; [done|].
    assert (Z.log2 v < 53)%Z; [|lia]. apply Z.log2_lt_pow2; lia. }
  destruct (Z.leb_spec (Z.log2 v - 52) 0); [done|lia].
Qed.

Lemma toNumber_nonNegative v : (0 ≤ v)%Z → nonNegative (toNumber v).
Proof.
  intros Hv. unfold toNumber. rewrite Z.abs_eq by done.
  destruct (Z.leb_spec (Z.log2 v - 52) 0); [done|].
  cbv zeta.
  assert (0 ≤ Z.shiftr v (Z.log2 v - 52))%Z as Hq by (by apply Z.shiftr_nonneg).
  match goal with
  | |- context [Z.shiftl (if ?b then ?a else ?c) _] =>
    set (q' := if b then a else c);
    assert (0 ≤ q')%Z as Hq' by (subst q'; destruct b; lia)
  end.
  destruct (Z.leb_spec (Z.shiftl 1 1024) (Z.shiftl q' (Z.log2 v - 52))); simpl.
  - apply Z.ltb_ge. done.
  - apply Z.mul_nonneg_nonneg; [|by apply Z.shiftl_nonneg].
    destruct (Z.sgn_spec v) as [[? ->]|[[? ->]|[? ->]]]; lia.
Qed.

Lemma toNumber_isNaN v : isNaN (toNumber v) = false.
Proof. unfold toNumber. by repeat destruct (_ <=? _)%Z. Qed.

Lemma isDigit_range c : isDigit c = true ↔ 48 ≤ c ≤ 57.
Proof. charclass. Qed.

Lemma digitValue_digit c :
  isDigit c = true → digitValue c = Some (Z.of_N (c - 48)).
Proof. unfold isDigit, digitValue. intros ->. reflexivity. Qed.

Lemma radixValue_nonneg digits :
  Forall (λ c, isDigit c = true) digits → (0 ≤ radixValue 10 digits)%Z.
Proof.
  unfold radixValue. intros Hds.
  assert (∀ acc, (0 ≤ acc)%Z →
            (0 ≤ foldl (λ acc c, acc * 10 + default 0 (digitValue c)) acc digits)%Z)
    as Hacc; [|by apply Hacc].
  induction Hds as [|c ds Hc _ IH]; intros acc Hacc; simpl; [done|].
  apply IH. rewrite (digitValue_digit c Hc). simpl. lia.
Qed.

(** [parseInt] of a run of decimal digits is the Number of their value. *)
Lemma parseInt_digits digits :
  digits ≠ [] → Forall (λ c, isDigit c = true) digits →
  parseInt (Some digits) = toNumber (radixValue 10 digits).
Proof.
  intros Hne Hds.
  destruct digits as [|d ds]; [done|]. inversion Hds as [|? ? Hd Hds']; subst.
  pose proof Hd as Hd'%isDigit_range.
  assert (dropWhile isWhiteSpace (d :: ds) = d :: ds) as Hdrop.
  { simpl. destruct (isWhiteSpace d) eqn:Hw; [|done].
    apply isWhiteSpace_not_digit in Hw. congruence. }
  assert ((d =? cu "-") = false) as Hminus
    by (apply N.eqb_neq; change (cu "-") with 45; lia).
  assert ((d =? cu "+") = false) as Hplus
    by (apply N.eqb_neq; change (cu "+") with 43; lia).
  assert (match d :: ds with
          | z :: x :: str' =>
            if (z =? cu "0") && ((x =? cu "x") || (x =? cu "X"))
            then (16%Z, str') else (10%Z, d :: ds)
          | _ => (10%Z, d :: ds)
          end = (10%Z, d :: ds)) as Hprefix.
  { destruct ds as [|x ds]; [done|]. inversion Hds' as [|? ? Hx%isDigit_range _]; subst.
    assert ((x =? cu "x") = false) as -> by (apply N.eqb_neq; change (cu "x") with 120; lia).
    assert ((x =? cu "X") = false) as -> by (apply N.eqb_neq; change (cu "X") with 88; lia).
    by rewrite andb_false_r. }
  unfold parseInt. cbn [from_option id]. rewrite Hdrop, Hminus, Hplus.
  cbn [orb]. rewrite Hprefix.
  rewrite takeWhile_all.
  - by rewrite Z.mul_1_l.
  - eapply Forall_impl; [exact Hds|]. intros c Hc. unfold isRadixDigit.
    rewrite (digitValue_digit c Hc). apply isDigit_range in Hc.
    apply Z.ltb_lt. lia.
Qed.

(** ** [parseString] *)

(** [parseString] reads the reference off the first match of the pattern. *)
Lemma parseString_head input :
  parseString input =
  (λ y, {| name := default [] (captures y !! 2%nat);
           quantity := (let parsedQuantity := parseInt (captures y !! 1%nat) in
                        if isNaN parsedQuantity then Finite 1 else parsedQuantity);
           language := Map_get (parseFlags (captures y !! 3%nat)) (js "l");
           customFlags := delete (js "l") (parseFlags (captures y !! 3%nat)) |})
  <$> head (run input regexp start).
Proof.
  unfold parseString, String_match.
  change regexp with (AssertStart ⋅ opt quantityPrefix ⋅ lineRest).
  rewrite exec_anchored. unfold matchAt. fold start.
  destruct (head _) as [y|]; simpl; [|done].
  by rewrite !lookup_insert_ne by done.
Qed.

(** C2, as the code has it: the quantity of a parsed line is never
    negative, but it can be zero.  When the line starts with digits
    followed by white space, the quantity is the Number of those digits:
    their value itself below 2^53, the nearest double from there on.  In
    every other case it is 1. *)
Theorem parseString_quantity input card :
  parseString input = Some card →
  nonNegative (quantity card)
  ∧ quantity card =
    match quantity_prefix input with
    | Some digits =>
      let value := radixValue 10 digits in
      if (value <? 2 ^ 53)%Z then Finite value else toNumber value
    | None => Finite 1
    end.
Proof.
  rewrite parseString_head.
  destruct (head _) as [y|] eqn:Hhead; simpl; [|done]. intros [= <-]. simpl.
  rewrite (regexp_group1 _ _ Hhead).
  destruct (quantity_prefix input) as [digits|] eqn:Hq.
  - apply quantity_prefix_Some in Hq as (Hne & Hds & _).
    rewrite parseInt_digits, toNumber_isNaN by done.
    pose proof (radixValue_nonneg digits Hds) as Hv. split.
    + by apply toNumber_nonNegative.
    + destruct (Z.ltb_spec (radixValue 10 digits) (2 ^ 53)); [|done].
      by apply toNumber_exact.
  - done.
Qed.

(** C7, as the code has it: the name can be empty.  A line that is made of
    flag tokens only, or of nothing, is parsed to a reference with an
    empty name; parsing does not fail on it. *)
Theorem parseString_empty_name input :
  test input flagsOnlyRegexp = true →
  ∃ card, parseString input = Some card ∧ name card = [].
Proof.
  change flagsOnlyRegexp with (AssertStart ⋅ foldr Seq AssertEnd [star flagToken]).
  rewrite test_anchored by (repeat constructor).
  intros (u & ? & -> & Hu & ->). rewrite app_nil_r.
  destruct (regexp_flags_only u Hu) as (y & Hhead & Hname).
  rewrite parseString_head, Hhead. simpl. eexists. split; [done|].
  simpl. by rewrite Hname.
Qed.

(** C8: the flags of a parsed line never hold the key [l].  The value of
    [l] among the flags parsed from group 3 is the language of the
    reference, and every other flag is kept as it was parsed. *)
Theorem parseString_language input card :
  parseString input = Some card →
  customFlags card !! js "l" = None
  ∧ ∃ match_,
      String_match input regexp = Some match_
      ∧ language card = Map_get (parseFlags (match_ !! 3%nat)) (js "l")
      ∧ ∀ flag, flag ≠ js "l" →
          customFlags card !! flag = parseFlags (match_ !! 3%nat) !! flag.
Proof.
  unfold parseString.
  destruct (String_match input regexp) as [match_|]; [|done].
  intros [= <-]. simpl. split; [apply lookup_delete_eq|].
  exists match_. split_and!; [done|done|].
  intros flag Hflag. by rewrite lookup_delete_ne.
Qed.

(** * The statements on the examples *)

(** The cases of the test suite of the client: the request of each name. *)
Example getCard_fuzzy_request :
  requestURI blackLotus
  = Return (js "https://api.scryfall.com/cards/named/?fuzzy=Black%20Lotus").
Proof. by_computation. Qed.

Example getCard_code_request :
  requestURI (card "leb/233" None) = Return (js "https://api.scryfall.com/cards/leb/233").
Proof. by_computation. Qed.

Example getCard_uuid_request :
  requestURI (card "56ebc372-aabd-4174-a943-c7bf59e5028d" None)
  = Return (js "https://api.scryfall.com/cards/56ebc372-aabd-4174-a943-c7bf59e5028d").
Proof. by_computation. Qed.

Example getCard_override_request :
  requestURI commandTower = Return (js "https://api.scryfall.com/cards/m3c/331/fr").
Proof. by_computation. Qed.

Example getCard_unpaired_surrogate :
  requestURI (mkParsedCard [0xD83D] (Finite 1) None ∅) = Throw URIError.
Proof. by_computation. Qed.

Example parseString_line :
  (λ c, (name c, quantity c, language c, map_to_list (customFlags c)))
    <$> parseString (js "3 Black Lotus -l=fr -x=1 -x=2 -y")
  = Some (js "Black Lotus", Finite 3, Some (js "fr"),
          [(js "y", None); (js "x", Some (js "2"))]).
Proof. by_computation. Qed.

Example parseString_line_terminator : parseString (js "1 a" ++ [0x0A] ++ js "b") = None.
Proof. by_computation. Qed.

Example parseString_rounds :
  quantity <$> parseString (js "9007199254740993 Forest") = Some (Finite 9007199254740992).
Proof. by_computation. Qed.

(** C1: the name [m3c/331/] has neither shape of the specification, and
    yet it is requested by its code and not by a fuzzy name. *)
Lemma getCard_strategy_counterexample :
  uuid_shape (js "m3c/331/") = false
  ∧ spec_code_shape (js "m3c/331/") = false
  ∧ requestURI (card "m3c/331/" None)
    = Return (js "https://api.scryfall.com/cards/m3c/331/")
  ∧ requestURI (card "m3c/331/" None) ≠ spec_requestURI (card "m3c/331/" None).
Proof. split_and!; [by_computation..|]. vm_compute. by intros [=]. Qed.

(** C2: the line [0 Forest] is parsed with the quantity 0. *)
Lemma parseString_quantity_counterexample :
  ∃ card, parseString (js "0 Forest") = Some card
          ∧ quantity card = Finite 0 ∧ ¬ atLeastOne (quantity card).
Proof.
  eexists. split_and!; [by_computation|by_computation|]. simpl. lia.
Qed.

Lemma parseString_quantity_witness :
  parseString (js "3 Black Lotus") = Some (mkParsedCard (js "Black Lotus") (Finite 3) None ∅)
  ∧ nonNegative (Finite 3)
  ∧ Finite 3 =
    match quantity_prefix (js "3 Black Lotus") with
    | Some digits =>
      let value := radixValue 10 digits in
      if (value <? 2 ^ 53)%Z then Finite value else toNumber value
    | None => Finite 1
    end.
Proof.
  assert (parseString (js "3 Black Lotus")
          = Some (mkParsedCard (js "Black Lotus") (Finite 3) None ∅)) as Hparsed
    by by_computation.
  split; [exact Hparsed|]. exact (parseString_quantity _ _ Hparsed).
Defined.

(** C7: the line of one flag and the empty line are parsed, with an
    empty name. *)
Lemma parseString_empty_name_counterexample :
  (∃ card, parseString (js " -foil") = Some card ∧ name card = [])
  ∧ (∃ card, parseString [] = Some card ∧ name card = []).
Proof. split; eexists; split; by_computation. Qed.

Lemma parseString_empty_name_witness :
  test (js " -foil -l=fr") flagsOnlyRegexp = true
  ∧ ∃ card, parseString (js " -foil -l=fr") = Some card ∧ name card = [].
Proof.
  assert (test (js " -foil -l=fr") flagsOnlyRegexp = true) as Hflags by by_computation.
  split; [exact Hflags|]. exact (parseString_empty_name _ Hflags).
Defined.

Lemma parseString_language_witness :
  let card := mkParsedCard (js "Forest") (Finite 2) (Some (js "de"))
                {[ js "foil" := None ]} in
  parseString (js "2 Forest -l=de -foil") = Some card
  ∧ customFlags card !! js "l" = None
  ∧ ∃ match_,
      String_match (js "2 Forest -l=de -foil") regexp = Some match_
      ∧ language card = Map_get (parseFlags (match_ !! 3%nat)) (js "l")
      ∧ ∀ flag, flag ≠ js "l" →
          customFlags card !! flag = parseFlags (match_ !! 3%nat) !! flag.
Proof.
  intros card.
  assert (parseString (js "2 Forest -l=de -foil") = Some card) as Hparsed
    by by_computation.
  split; [exact Hparsed|]. exact (parseString_language _ _ Hparsed).
Defined.

Lemma getCard_language_override_witness :
  code_shape (name commandTower) = true
  ∧ language commandTower = Some (js "fr")
  ∧ js "fr" ∈ validLanguages
  ∧ ∃ set number rest,
      split (cu "/") (name commandTower) = set :: number :: rest
      ∧ trace <$> getCard (T:=nat) commandTower =
        Return [Request (SCRYFALL_API_URI ++ js "/cards/"
                         ++ set ++ js "/" ++ number ++ js "/" ++ js "fr")].
Proof.
  assert (code_shape (name commandTower) = true) as Hshape by by_computation.
  assert (language commandTower = Some (js "fr")) as Hlanguage by by_computation.
  assert (js "fr" ∈ validLanguages) as Hvalid by by_decision.
  split_and!; [exact Hshape|exact Hlanguage|exact Hvalid|].
  exact (getCard_language_override commandTower (js "fr") Hshape Hlanguage Hvalid).
Defined.

(** The example of the specification: the language [fr] replaces the
    [de] of the name. *)
Example getCard_override_replaces :
  trace <$> getCard (T:=nat) commandTower
  = Return [Request (js "https://api.scryfall.com/cards/m3c/331/fr")].
Proof. by_computation. Qed.

Lemma getCard_absent_or_fault_witness :
  requestURI stormCrow
  = Return (js "https://api.scryfall.com/cards/named/?fuzzy=Storm%20Crow")
  ∧ settled <$> getCard (T:=nat) stormCrow = Return (Rejected (FetchError 7))
  ∧ requestURI (card "Nothing" None)
    = Return (js "https://api.scryfall.com/cards/named/?fuzzy=Nothing")
  ∧ settled <$> getCard (T:=nat) (card "Nothing" None) = Return (Fulfilled None).
Proof.
  assert (requestURI stormCrow
          = Return (js "https://api.scryfall.com/cards/named/?fuzzy=Storm%20Crow"))
    as Hdown by by_computation.
  assert (requestURI (card "Nothing" None)
          = Return (js "https://api.scryfall.com/cards/named/?fuzzy=Nothing"))
    as Hmissing by by_computation.
  split_and!; [exact Hdown| |exact Hmissing|].
  - exact (getCard_absent_or_fault (T:=nat) stormCrow _ Hdown).
  - exact (getCard_absent_or_fault (T:=nat) (card "Nothing" None) _ Hmissing).
Defined.

Lemma follows_broken : follows (js "/broken/1") [brokenPage1] (js "/broken/2").
Proof.
  split_and!; [|by_computation|].
  - eexists. split_and!; by_computation.
  - eexists. split; by_computation.
Defined.

Lemma follows_partial : follows (js "/partial/1") [partialPage1] (js "/partial/2").
Proof.
  split_and!; [|by_computation|].
  - eexists. split_and!; by_computation.
  - eexists. split; by_computation.
Defined.

Lemma follows_list : follows (js "/list/1") [listPage1; listPage2] (js "/list/3").
Proof.
  split_and!; [|by_computation|].
  { eexists. split_and!; by_computation. }
  eexists. split; [by_computation|].
  split_and!; [|by_computation|].
  { eexists. split_and!; by_computation. }
  eexists. split; by_computation.
Defined.

Lemma answers_list : answers (js "/list/3") listPage3.
Proof. eexists. split_and!; by_computation. Defined.

Lemma answers_open : answers (js "/open/1") openPage1.
Proof. eexists. split_and!; by_computation. Defined.

(** C3: the second page of the list is down, and the fetch of the list
    fails with the fault of the transport instead of resolving to an absent
    result. *)
Lemma getList_failing_page_counterexample :
  follows (js "/broken/1") [brokenPage1] (js "/broken/2")
  ∧ transport (js "/broken/2") = Rejected (FetchError 7)
  ∧ settled (_getListFromApi 2 (js "/broken/1") (recording id))
    = Rejected (FetchError 7)
  ∧ settled (_getListFromApi 2 (js "/broken/1") (recording id))
    ≠ Fulfilled None.
Proof.
  split_and!; [exact follows_broken|by_computation|by_computation|].
  vm_compute. by intros [=].
Qed.

Lemma getList_failing_page_witness :
  _getListFromApi 2 (js "/broken/1") (recording id)
  = mkPromise [Request (js "/broken/1"); Request (js "/broken/2")]
              (Rejected (FetchError 7))
  ∧ _getListFromApi 2 (js "/partial/1") (recording id)
    = mkPromise [Request (js "/partial/1"); Request (js "/partial/2")]
                (Fulfilled None).
Proof.
  split.
  - refine (getList_failing_page [brokenPage1] 2 (js "/broken/1") (js "/broken/2")
              (Fault (FetchError 7)) _ (recording id) follows_broken _ _).
    + by_computation.
    + simpl. lia.
  - refine (getList_failing_page [partialPage1] 2 (js "/partial/1") (js "/partial/2")
              NotOk _ (recording id) follows_partial _ _).
    + by_computation.
    + simpl. lia.
Defined.

Lemma getList_assembles_witness :
  _getListFromApi 3 (js "/list/1") (recording length)
  = mkPromise [Request (js "/list/1"); Request (js "/list/2"); Request (js "/list/3");
               Transformed [1; 2; 3; 4; 5]%nat]
              (Fulfilled (Some 5%nat)).
Proof.
  refine (proj2 (getList_assembles 3 (js "/list/1") [listPage1; listPage2]
                   (js "/list/3") listPage3 _ (recording length) length
                   follows_list answers_list _ _)).
  - left. by_computation.
  - simpl. lia.
Defined.

Lemma getList_more_without_next_witness :
  _getListFromApi 1 (js "/open/1") (recording length)
  = mkPromise [Request (js "/open/1"); Transformed [1; 2]%nat]
              (Fulfilled (Some 2%nat)).
Proof.
  refine (proj2 (getList_more_without_next 1 (js "/open/1") [] (js "/open/1")
                   openPage1 _ (recording length) length _ answers_open _ _ _)).
  - by_computation.
  - by_computation.
  - by_computation.
  - simpl. lia.
Defined.

(** C9: the lookup of the first reference fails, and the batch fails with
    it: no result is returned for the second reference, whose own lookup
    resolves. *)
Lemma getCardsBatch_in_order_counterexample :
  settled <$> getCard (T:=nat) blackLotus = Return (Fulfilled (Some (MockCard 2)))
  ∧ settled <$> getCardsBatch (T:=nat) [1; 0]%nat [stormCrow; blackLotus]
    = Return (Rejected (FetchError 7))
  ∧ ∀ results, settled <$> getCardsBatch (T:=nat) [1; 0]%nat [stormCrow; blackLotus]
               ≠ Return (Fulfilled results).
Proof.
  split_and!; [by_computation..|]. intros results. vm_compute. by intros [=].
Qed.

Lemma getCardsBatch_in_order_witness :
  settled <$> getCardsBatch (T:=nat) [1; 0]%nat [commandTower; blackLotus]
  = Return (Fulfilled [Some (MockCard 1); Some (MockCard 2)]).
Proof.
  refine (getCardsBatch_in_order (T:=nat) [1; 0]%nat [commandTower; blackLotus]
            [Some (MockCard 1); Some (MockCard 2)] _ _).
  - by_decision.
  - repeat constructor; by_computation.
Defined.

(** * More on the client *)

(** ** Lists of synchronous calls *)

Lemma mapM_Return {A B} (f : A → Completion B) (l : list A) (k : list B) :
  Forall2 (λ a b, f a = Return b) l k → mapM f l = Return k.
Proof.
  induction 1 as [|a b l k Ha _ IH]; simpl; [done|].
  by rewrite Ha, IH.
Qed.

Lemma mapM_Throw {A B} (f : A → Completion B) (l1 l2 : list A) (a : A) e :
  Forall (λ b, ∃ v, f b = Return v) l1 → f a = Throw e →
  mapM f (l1 ++ a :: l2) = Throw e.
Proof.
  intros Hl1 Ha. induction Hl1 as [|b l1 [v Hb] _ IH]; simpl.
  - by rewrite Ha.
  - by rewrite Hb, IH.
Qed.

(** ** [Promise.all] and a promise that fails *)

Section AllRejected.
Context {Json T : Type}.
Implicit Types (promises : list (Promise T (option Json))) (st : AllState (Json:=Json)).

Lemma onSettled_combined promises st i o :
  combined st = Some o → combined (onSettled promises st i) = Some o.
Proof.
  intros Hst. unfold onSettled.
  destruct (settled <$> promises !! i) as [[x|e|]|]; [|by unfold settle; rewrite Hst|done..].
  simpl. destruct (decide _); [|done]. unfold settle. simpl. by rewrite Hst.
Qed.

Lemma foldl_onSettled_combined promises todo : ∀ st o,
  combined st = Some o → combined (foldl (onSettled promises) st todo) = Some o.
Proof.
  induction todo as [|i todo IH]; intros st o Hst; simpl; [done|].
  by apply IH, onSettled_combined.
Qed.

Lemma foldl_onSettled_pending promises todo : ∀ st,
  Forall (λ j, ∃ r, settled <$> promises !! j = Some (Fulfilled r)) todo →
  combined st = None →
  (length todo < remainingElementsCount st)%nat →
  combined (foldl (onSettled promises) st todo) = None
  ∧ remainingElementsCount (foldl (onSettled promises) st todo)
    = (remainingElementsCount st - length todo)%nat.
Proof.
  induction todo as [|j todo IH]; intros st Hall Hst Hlen; simpl.
  { split; [done|lia]. }
  inversion Hall as [|? ? [r Hj] Hall']; subst. simpl in Hlen.
  destruct (IH (onSettled promises st j)) as [Hc Hr]; [done| | |].
  - unfold onSettled. rewrite Hj. rewrite decide_False by lia. done.
  - unfold onSettled. rewrite Hj. rewrite decide_False by lia. simpl. lia.
  - split; [done|]. rewrite Hr. unfold onSettled. rewrite Hj.
    rewrite decide_False by lia. simpl. lia.
Qed.

(** [Promise.all] fails with the reason of the first promise that fails,
    in the order of completion. *)
Lemma Promise_all_rejected before i later promises e :
  before ++ i :: later ≡ₚ seq 0 (length promises) →
  Forall (λ j, ∃ r, settled <$> promises !! j = Some (Fulfilled r)) before →
  settled <$> promises !! i = Some (Rejected e) →
  settled (Promise_all (before ++ i :: later) promises) = Rejected e.
Proof.
  intros Hperm Hbefore Hi. unfold Promise_all. cbn [settled].
  pose proof (Permutation_length Hperm) as Hlen.
  rewrite length_seq, length_app in Hlen. simpl in Hlen.
  set (st0 := mkAllState _ _ _).
  rewrite foldl_app. cbn [foldl].
  destruct (foldl_onSettled_pending promises before st0) as [Hc Hr];
    [done| |simpl; lia|].
  { unfold st0. simpl. rewrite decide_False by lia. done. }
  rewrite (foldl_onSettled_combined promises later _ (Rejected e)); [done|].
  set (st1 := foldl _ st0 before) in *.
  unfold onSettled. rewrite Hi. unfold settle. by rewrite Hc.
Qed.
End AllRejected.

(** ** Batches: requests, faults and exceptions *)

Section BatchMore.
Context {Json T : Type} `{!Remote Json T}.

Lemma mapM_getCard_outcomes cards (outcomes : list (outcome (option Json))) :
  Forall2 (λ c o, settled <$> getCard (T:=T) c = Return o) cards outcomes →
  ∃ promises,
    mapM getCard cards = Return promises
    ∧ Forall2 (λ (p : Promise T (option Json)) o, settled p = o) promises outcomes.
Proof.
  induction 1 as [|c o cards outcomes Hc _ (promises & Hmap & Hall)]; simpl.
  - exists []. by split.
  - destruct (getCard c) as [p|e] eqn:Hp; [|done]. simpl in Hc.
    exists (p :: promises). rewrite Hmap. simpl. split; [done|].
    constructor; [congruence|done].
Qed.


(** X2: when a lookup of the batch fails, the batch fails with the fault
    of the lookup that fails first in the order of completion, the lookups
    completed before it having resolved. *)
Theorem getCardsBatch_first_fault before i later cards outcomes e :
  Forall2 (λ c o, settled <$> getCard (T:=T) c = Return o) cards outcomes →
  before ++ i :: later ≡ₚ seq 0 (length cards) →
  Forall (λ j, ∃ r, outcomes !! j = Some (Fulfilled r)) before →
  outcomes !! i = Some (Rejected e) →
  settled <$> getCardsBatch (before ++ i :: later) cards = Return (Rejected e).
Proof.
  intros Hall Hperm Hbefore Hi.
  destruct (mapM_getCard_outcomes _ _ Hall) as (promises & Hmap & Hsettled).
  unfold getCardsBatch. rewrite Hmap. simpl. f_equal.
  assert (∀ j o, outcomes !! j = Some o → settled <$> promises !! j = Some o) as Hlook.
  { intros j o Hj.
    destruct (Forall2_lookup_r _ _ _ _ _ Hsettled Hj) as (p & -> & <-). done. }
  apply Promise_all_rejected.
  - by rewrite (Forall2_length _ _ _ Hsettled), <-(Forall2_length _ _ _ Hall).
  - eapply Forall_impl; [done|]. intros j [r Hj]. exists r. by apply Hlook.
  - by apply Hlook.
Qed.

(** X3: when the request of a reference cannot be built, its name having
    no escaped form, the batch throws that exception instead of returning
    a promise. *)
Theorem getCardsBatch_throws completion before c later e :
  Forall (λ b, ∃ uri, requestURI b = Return uri) before →
  requestURI c = Throw e →
  getCardsBatch (T:=T) completion (before ++ c :: later) = Throw e.
Proof.
  intros Hbefore Hc. unfold getCardsBatch.
  rewrite (mapM_Throw _ _ _ _ e); [done| |].
  - eapply Forall_impl; [done|]. intros b [uri Hb]. eexists.
    by rewrite getCard_requestURI, Hb.
  - by rewrite getCard_requestURI, Hc.
Qed.

(** X4: a page that names itself as the next page makes the fetch of the
    list request that page again and again: however many pages are
    followed, the fetch has not settled and the transform has not been
    applied. *)
Theorem getList_cycle fuel : ∀ uri json U (cb : list T → Promise T U),
  answers uri json → has_more json = true → next_page json = Some uri →
  _getListFromApi fuel uri cb = mkPromise (replicate fuel (Request uri)) Unsettled.
Proof.
  induction fuel as [|fuel IH]; intros uri json U cb Hanswers Hmore Hnext; [done|].
  cbn [_getListFromApi]. rewrite (callApi_answers _ json) by done.
  rewrite Hmore, Hnext. erewrite IH by done. done.
Qed.
End BatchMore.

(** ** Prints and callbacks *)

Section PrintsTheory.
Context {Json T : Type} `{!Remote Json T, !CardFields Json T}.

(** X5: the prints of a card are fetched from its prints_search_uri, to
    which the parameter include_multilingual=true is appended on demand.
    For a chain of pages the result is the entries of all the pages in
    their order, of which only those whose games hold [paper] are kept when
    only paper is asked for. *)
Theorem getCardPrintsFromCard_assembles fuel (scryfallCard : Json)
    (includeMultilingual onlyPaper : bool) pages last json :
  let url := if includeMultilingual
             then prints_search_uri scryfallCard ++ js "&include_multilingual=true"
             else prints_search_uri scryfallCard in
  follows url pages last → answers last json →
  has_more json = false ∨ next_page json = None →
  (length pages < fuel)%nat →
  getCardPrintsFromCard fuel scryfallCard includeMultilingual onlyPaper =
  mkPromise (requests url pages)
    (Fulfilled (Some (let cards := concat (data <$> pages) ++ data json in
                      if onlyPaper
                      then filter (λ card : T, js "paper" ∈ games card) cards
                      else cards))).
Proof.
  intros url Hfollows Hlast Hend Hfuel. unfold getCardPrintsFromCard. fold url.
  erewrite getList_chain by done. rewrite fmap_resolve.
  unfold after, resolve. simpl. by rewrite app_nil_r.
Qed.

Lemma ParsedCard_eta (p : ParsedCard) :
  {| name := name p; quantity := quantity p; language := language p;
     customFlags := customFlags p |} = p.
Proof. by destruct p. Qed.

Lemma mapM_lookup {I A} (parsed : I → ParsedCard)
    (wrap : I → Promise T (option Json) → Promise T A) cards promises :
  Forall2 (λ card p, getCard (T:=T) (parsed card) = Return p) cards promises →
  mapM (λ card,
          lookup ← getCard {| name := name (parsed card);
                              quantity := quantity (parsed card);
                              language := language (parsed card);
                              customFlags := customFlags (parsed card) |};
          Return (wrap card lookup)) cards
  = Return (zip_with wrap cards promises).
Proof.
  intros Hall. apply mapM_Return.
  induction Hall as [|card p cards promises Hp _ IH]; simpl; constructor; [|done].
  by rewrite ParsedCard_eta, Hp.
Qed.

Lemma then_assoc {A B C} (p : Promise T A) (f : A → Promise T B) (g : B → Promise T C) :
  then_ (then_ p f) g = then_ p (λ a, then_ (f a) g).
Proof.
  unfold then_. destruct p as [t [a| |]]; simpl; try done.
  destruct (f a) as [t' [b| |]]; simpl; try done.
  by rewrite app_assoc.
Qed.

Lemma Forall2_getCard_uris {I} (parsed : I → ParsedCard) cards uris :
  Forall2 (λ card uri, requestURI (parsed card) = Return uri) cards uris →
  Forall2 (λ card p, getCard (T:=T) (parsed card) = Return p) cards
    ((λ uri, _callApi uri (λ json : Json, resolve (Some json))) <$> uris).
Proof.
  intros Hall. apply Forall2_fmap_r. eapply Forall2_impl; [done|].
  intros card uri Hc. simpl. by rewrite getCard_requestURI, Hc.
Qed.



Lemma void_None (v : void) : v = None.
Proof. by destruct v as [[]|]. Qed.

(** X7: when every lookup resolves and the callback returns for every
    input, the promise of [getCardsAndDo] is fulfilled, in whatever order
    the lookups complete. *)
Theorem getCardsAndDo_completes {I} (parsed : I → ParsedCard) completion cards results
    (callback : I → option Json → Promise T void) :
  completion ≡ₚ seq 0 (length cards) →
  Forall2 (λ card r, settled <$> getCard (T:=T) (parsed card) = Return (Fulfilled r))
          cards results →
  (∀ card r, ∃ v, settled (callback card r) = Fulfilled v) →
  settled <$> getCardsAndDo parsed completion cards callback
  = Return (Fulfilled (replicate (length cards) None)).
Proof.
  intros Hperm Hall Hcallback.
  assert (∃ promises,
            Forall2 (λ card p, getCard (T:=T) (parsed card) = Return p) cards promises
            ∧ Forall2 (λ (p : Promise T (option Json)) r, settled p = Fulfilled r)
                promises results) as (promises & Hpromises & Hsettled).
  { clear Hperm. induction Hall as [|card r cards results Hc _ (ps & Hps & Hs)].
    - exists []. by split.
    - destruct (getCard (parsed card)) as [p|e] eqn:Hp; [|done].
      exists (p :: ps). split; constructor; try done. simpl in Hc. congruence. }
  unfold getCardsAndDo.
  pose proof (mapM_lookup parsed
                (λ card lookup, then_ lookup (λ scryfallCard, callback card scryfallCard))
                _ _ Hpromises) as Hmap.
  cbv beta in Hmap. rewrite Hmap. clear Hmap.
  simpl. f_equal. apply Promise_all_fulfilled.
  - rewrite length_zip_with.
    rewrite <-(Forall2_length _ _ _ Hpromises). by rewrite Nat.min_id.
  - clear Hperm Hall. revert results Hsettled.
    induction Hpromises as [|card p cards promises _ _ IH]; intros results Hsettled;
      inversion Hsettled as [|? r ? results' Hp Hrest]; subst; simpl; constructor.
    + unfold then_. rewrite Hp. simpl.
      destruct (Hcallback card r) as [v ->]. by rewrite (void_None v).
    + by eapply IH.
Qed.

Lemma settled_then_lookup {I} (callback : I → option Json → Promise T void) card uri :
  settled (then_ (_callApi uri (λ json : Json, resolve (Some json)))
                 (λ scryfallCard, callback card scryfallCard))
  = outcomeOfInput callback card uri.
Proof.
  unfold outcomeOfInput, lookupAt, then_.
  by destruct (settled (_callApi uri _)).
Qed.

(** X8: the promise of [getCardsAndDo] is rejected as soon as the promise
    of one input is: with the fault of the first lookup that fails or of
    the first callback that fails, first in the order in which they
    complete. *)
Theorem getCardsAndDo_first_fault {I} (parsed : I → ParsedCard) before i later
    cards uris (callback : I → option Json → Promise T void) e :
  Forall2 (λ card uri, requestURI (parsed card) = Return uri) cards uris →
  before ++ i :: later ≡ₚ seq 0 (length cards) →
  Forall (λ j, ∃ v, zip_with (outcomeOfInput callback) cards uris !! j
                    = Some (Fulfilled v)) before →
  zip_with (outcomeOfInput callback) cards uris !! i = Some (Rejected e) →
  settled <$> getCardsAndDo parsed (before ++ i :: later) cards callback
  = Return (Rejected e).
Proof.
  intros Hall Hperm Hbefore Hi. unfold getCardsAndDo.
  pose proof (mapM_lookup parsed
                (λ card lookup, then_ lookup (λ scryfallCard, callback card scryfallCard))
                _ _ (Forall2_getCard_uris _ _ _ Hall)) as Hmap.
  cbv beta in Hmap. rewrite Hmap. clear Hmap. simpl. f_equal.
  set (promises := zip_with _ cards _).
  assert (settled <$> promises = zip_with (outcomeOfInput callback) cards uris)
    as Houtcomes.
  { subst promises. clear -Hall.
    induction Hall as [|card uri cards uris _ _ IH]; [done|].
    rewrite fmap_cons. cbn [zip_with fmap list_fmap].
    by rewrite settled_then_lookup, <-IH. }
  assert (length promises = length cards) as Hlen.
  { rewrite <-(length_fmap settled), Houtcomes, length_zip_with.
    rewrite <-(Forall2_length _ _ _ Hall). by rewrite Nat.min_id. }
  rewrite <-Houtcomes in Hbefore, Hi.
  apply Promise_all_rejected.
  - by rewrite Hlen.
  - eapply Forall_impl; [exact Hbefore|]. intros j [v Hv].
    exists v. by rewrite <-list_lookup_fmap.
  - by rewrite <-list_lookup_fmap.
Qed.


Lemma settled_then_prints {I} fuel (callback : I → option (list T) → Promise T void)
    (includeMultilingual onlyPaper : bool) card uri :
  settled (then_
             (then_ (_callApi uri (λ json : Json, resolve (Some json)))
                (λ scryfallCard,
                   match scryfallCard with
                   | Some scryfallCard =>
                     getCardPrintsFromCard fuel scryfallCard
                       includeMultilingual onlyPaper
                   | None => resolve None
                   end))
             (λ scryfallPrints, callback card scryfallPrints))
  = outcomeOfPrintsInput fuel callback includeMultilingual onlyPaper card uri.
Proof.
  rewrite then_assoc. unfold outcomeOfPrintsInput, lookupAt.
  unfold then_ at 1. destruct (settled (_callApi uri _)) as [[scryfallCard|]| |];
    try done.
  unfold then_.
  by destruct (settled (getCardPrintsFromCard fuel scryfallCard _ _)).
Qed.

(** X10: the promise of [getCardPrintsAndDo] is rejected with the fault of
    the first input, in the order of completion, whose lookup, whose fetch
    of the prints or whose callback fails. *)
Theorem getCardPrintsAndDo_first_fault {I} (parsed : I → ParsedCard) fuel
    before i later cards uris (callback : I → option (list T) → Promise T void)
    (includeMultilingual onlyPaper : bool) e :
  let outcomes :=
    zip_with (outcomeOfPrintsInput fuel callback includeMultilingual onlyPaper)
      cards uris in
  Forall2 (λ card uri, requestURI (parsed card) = Return uri) cards uris →
  before ++ i :: later ≡ₚ seq 0 (length cards) →
  Forall (λ j, ∃ v, outcomes !! j = Some (Fulfilled v)) before →
  outcomes !! i = Some (Rejected e) →
  settled <$> getCardPrintsAndDo parsed fuel (before ++ i :: later) cards callback
                includeMultilingual onlyPaper
  = Return (Rejected e).
Proof.
  intros outcomes Hall Hperm Hbefore Hi. unfold getCardPrintsAndDo.
  pose proof (mapM_lookup parsed
    (λ card lookup,
       then_ (then_ lookup (λ scryfallCard,
                match scryfallCard with
                | Some scryfallCard =>
                  getCardPrintsFromCard fuel scryfallCard includeMultilingual onlyPaper
                | None => resolve None
                end))
             (λ scryfallPrints, callback card scryfallPrints))
    _ _ (Forall2_getCard_uris _ _ _ Hall)) as Hmap.
  cbv beta in Hmap. rewrite Hmap. clear Hmap. simpl. f_equal.
  set (promises := zip_with _ cards _).
  assert (settled <$> promises = outcomes) as Houtcomes.
  { subst promises outcomes. clear -Hall.
    induction Hall as [|card uri cards uris _ _ IH]; [done|].
    rewrite fmap_cons. cbn [zip_with fmap list_fmap].
    by rewrite settled_then_prints, <-IH. }
  assert (length promises = length cards) as Hlen.
  { rewrite <-(length_fmap settled), Houtcomes. subst outcomes.
    rewrite length_zip_with, <-(Forall2_length _ _ _ Hall). by rewrite Nat.min_id. }
  rewrite <-Houtcomes in Hbefore, Hi.
  apply Promise_all_rejected.
  - by rewrite Hlen.
  - eapply Forall_impl; [exact Hbefore|]. intros j [v Hv].
    exists v. by rewrite <-list_lookup_fmap.
  - by rewrite <-list_lookup_fmap.
Qed.
End PrintsTheory.

(** ** The request of a reference *)

Lemma isUnescaped_not_surrogate c :
  isUnescaped c = true → isLeadingSurrogate c = false ∧ isTrailingSurrogate c = false.
Proof.
  unfold isUnescaped, isLeadingSurrogate, isTrailingSurrogate.
  rewrite orb_true_iff, bool_decide_eq_true. intros [Hc|Hc].
  - split; charclass.
  - assert (c < 128) as Hlt.
    { revert Hc. vm_compute js. rewrite !elem_of_cons, elem_of_nil. lia. }
    rewrite !andb_false_iff, !N.leb_gt. lia.
Qed.

Lemma encodeURIComponent_throws_length n : ∀ string, (length string ≤ n)%nat →
  encodeURIComponent string = Throw URIError ↔ isWellFormed string = false.
Proof.
  induction n as [|n IH]; intros [|C rest] Hn; simpl in *; try done; try lia.
  destruct (isUnescaped C) eqn:Hunescaped.
  { destruct (isUnescaped_not_surrogate _ Hunescaped) as [-> ->].
    rewrite <-IH by lia. by destruct (encodeURIComponent rest). }
  destruct (isLeadingSurrogate C) eqn:Hlead, (isTrailingSurrogate C) eqn:Htrail;
    try done.
  - exfalso. unfold isLeadingSurrogate, isTrailingSurrogate in *.
    rewrite andb_true_iff, !N.leb_le in Hlead, Htrail. lia.
  - destruct rest as [|second rest']; [done|]. simpl in Hn.
    destruct (isTrailingSurrogate second); [|done].
    rewrite andb_true_l, <-IH by lia. by destruct (encodeURIComponent rest').
  - rewrite <-IH by lia. by destruct (encodeURIComponent rest).
Qed.

Lemma encodeURIComponent_URIError string e :
  encodeURIComponent string = Throw e → e = URIError.
Proof.
  remember (length string) as n eqn:Hn.
  assert (length string ≤ n)%nat as Hle by lia. clear Hn. revert string Hle.
  induction n as [|n IH]; intros [|C rest] Hn; simpl in *; try done; try lia.
  assert (∀ s (k : list N → list N), (length s ≤ n)%nat →
            (R ← encodeURIComponent s; Return (k R)) = Throw e → e = URIError)
    as Hrest.
  { intros s k Hs Hthrow. apply (IH s Hs).
    by destruct (encodeURIComponent s). }
  destruct (isUnescaped C); [apply Hrest; lia|].
  destruct (isTrailingSurrogate C); [congruence|].
  destruct (isLeadingSurrogate C); [|apply Hrest; lia].
  destruct rest as [|second rest']; [congruence|]. simpl in Hn.
  destruct (isTrailingSurrogate second); [apply Hrest; lia|congruence].
Qed.

(** X11: [getCard] throws exactly for a name that has neither the shape of
    an identifier nor that of a set/number code and holds a surrogate
    without its pair; what it throws is the URIError of
    [encodeURIComponent].  No request is made then. *)
Theorem getCard_throws {Json T} `{!Remote Json T} parsedCard e :
  getCard (Json:=Json) (T:=T) parsedCard = Throw e ↔
  e = URIError
  ∧ test (name parsedCard) uuidRegexp = false
  ∧ test (name parsedCard) codeNumberRegexp = false
  ∧ isWellFormed (name parsedCard) = false.
Proof.
  rewrite getCard_requestURI. unfold requestURI.
  destruct (test (name parsedCard) uuidRegexp).
  { simpl. split; [done|]. by intros (_ & ? & _). }
  destruct (test (name parsedCard) codeNumberRegexp).
  { simpl. split; [done|]. by intros (_ & _ & ? & _). }
  rewrite <-(encodeURIComponent_throws_length (length (name parsedCard))) by done.
  destruct (encodeURIComponent (name parsedCard)) as [escaped|e'] eqn:Hescaped.
  { simpl. split; [done|]. by intros (_ & _ & _ & ?). }
  apply encodeURIComponent_URIError in Hescaped as ->. simpl.
  split; [intros [= <-]; done|]. by intros (-> & _).
Qed.

Lemma hexDigit_isAlnum v : v < 16 → isAlnum (hexDigit v) = true.
Proof.
  intros Hv. unfold hexDigit. destruct (N.ltb_spec v 10); charclass.
Qed.

Lemma utf8_octets cp : cp < 0x110000 → Forall (λ octet, octet < 256) (utf8 cp).
Proof.
  intros Hcp. unfold utf8.
  repeat match goal with |- context [?a <? ?b] => destruct (N.ltb_spec a b) end;
    repeat constructor;
    repeat match goal with
    | |- context [?a mod 64] => pose proof (N.mod_lt a 64 ltac:(lia)); generalize dependent (a mod 64); intros
    end; try lia.
  - assert (cp / 64 < 32); [apply N.Div0.div_lt_upper_bound|]; lia.
  - assert (cp / 4096 < 16); [apply N.Div0.div_lt_upper_bound|]; lia.
  - assert (cp / 262144 < 5); [apply N.Div0.div_lt_upper_bound|]; lia.
Qed.

Lemma percentEncode_safe cp :
  cp < 0x110000 → Forall (λ c, isUriSafe c = true) (percentEncode cp).
Proof.
  intros Hcp. unfold percentEncode. apply Forall_bind.
  eapply Forall_impl; [by apply utf8_octets|]. intros octet Hoctet. simpl in Hoctet.
  unfold isUriSafe. constructor; [done|]. constructor; [|constructor; [|done]].
  - unfold isUnescaped. rewrite hexDigit_isAlnum; [done|].
    apply N.Div0.div_lt_upper_bound; lia.
  - unfold isUnescaped. rewrite hexDigit_isAlnum; [done|].
    apply N.mod_lt; lia.
Qed.

Lemma encodeURIComponent_safe n : ∀ string escaped, (length string ≤ n)%nat →
  Forall (λ c, c < 0x10000) string →
  encodeURIComponent string = Return escaped →
  Forall (λ c, isUriSafe c = true) escaped.
Proof.
  induction n as [|n IH]; intros [|C rest] escaped Hn Hunits; simpl in *;
    try lia; try (intros [= <-]; constructor).
  apply Forall_cons in Hunits as [HC Hrest].
  destruct (isUnescaped C) eqn:Hunescaped.
  { destruct (encodeURIComponent rest) as [R|] eqn:HR; [|done].
    intros [= <-]. constructor; [|apply (IH rest); [lia|done..]].
    unfold isUriSafe. by rewrite Hunescaped. }
  destruct (isTrailingSurrogate C); [done|].
  destruct (isLeadingSurrogate C) eqn:Hlead.
  - destruct rest as [|second rest']; [done|]. simpl in Hn.
    apply Forall_cons in Hrest as [Hsecond Hrest'].
    destruct (isTrailingSurrogate second) eqn:Htrail; [|done].
    destruct (encodeURIComponent rest') as [R|] eqn:HR; [|done].
    intros [= <-]. apply Forall_app. split; [|apply (IH rest'); [lia|done..]].
    apply percentEncode_safe.
    unfold isLeadingSurrogate, isTrailingSurrogate in *.
    rewrite andb_true_iff, !N.leb_le in Hlead, Htrail. lia.
  - destruct (encodeURIComponent rest) as [R|] eqn:HR; [|done].
    intros [= <-]. apply Forall_app. split; [|apply (IH rest); [lia|done..]].
    apply percentEncode_safe. lia.
Qed.

(** X12: the request for a name that is looked up by name is the fuzzy
    search followed by the escaped name, and the escaped name holds only
    letters, digits, the marks [-_.!~*'()] and the percent sign: no code
    unit of the name can end the parameter or start another one. *)
Theorem getCard_fuzzy_safe parsedCard uri :
  Forall (λ c, c < 0x10000) (name parsedCard) →
  test (name parsedCard) uuidRegexp = false →
  test (name parsedCard) codeNumberRegexp = false →
  requestURI parsedCard = Return uri →
  ∃ escaped,
    uri = SCRYFALL_API_URI ++ js "/cards/named/?fuzzy=" ++ escaped
    ∧ Forall (λ c, isUriSafe c = true) escaped.
Proof.
  intros Hunits Huuid Hcode. unfold requestURI. rewrite Huuid, Hcode.
  destruct (encodeURIComponent (name parsedCard)) as [escaped|] eqn:Hescaped; [|done].
  intros [= <-]. exists escaped. split; [done|].
  by eapply encodeURIComponent_safe.
Qed.

(** X13: no name has both the shape of an identifier and that of a
    set/number code, so that the order in which [getCard] tries the two
    patterns does not matter. *)
Theorem uuid_not_codeNumber s :
  test s uuidRegexp = true → test s codeNumberRegexp = false.
Proof.
  rewrite test_uuidRegexp, test_codeNumberRegexp. apply uuid_shape_not_code.
Qed.

(** ** The parts of a line *)

Section Runs.
Variable Input : list N.
Implicit Types (x y z : MatchState).

Lemma reach_0 x : reach x 0 = x.
Proof. destruct x. unfold reach. simpl. by rewrite Nat.add_0_r. Qed.

Lemma reach_advance x k : reach (advance x) k = reach x (S k).
Proof. unfold reach, advance. simpl. f_equal. lia. Qed.

Lemma resetCaptures_nil x : resetCaptures [] x = x.
Proof. by destruct x. Qed.

Lemma takeWhile_drop_lookup (A : N → bool) i :
  length (takeWhile A (drop i Input)) =
  match Input !! i with
  | Some ch => if A ch then S (length (takeWhile A (drop (S i) Input))) else O
  | None => O
  end.
Proof.
  destruct (Input !! i) as [ch|] eqn:Hch.
  - rewrite (drop_S _ _ _ Hch). simpl. by destruct (A ch).
  - by rewrite drop_ge by by apply lookup_ge_None.
Qed.

(** The successes of a starred character class, in priority order: every
    number of code units of the class, the most first when greedy and the
    least first when lazy. *)
Lemma RepeatMatcher_chars A (greedy : bool) : ∀ fuel x,
  (length Input - endIndex x < fuel)%nat →
  RepeatMatcher (run Input (CharSet A)) [] greedy fuel 0 None x =
  reach x <$>
    (let counts := seq 0 (S (length (takeWhile A (drop (endIndex x) Input)))) in
     if greedy then reverse counts else counts).
Proof.
  induction fuel as [|fuel IH]; intros x Hfuel; [lia|].
  cbn [RepeatMatcher]. rewrite resetCaptures_nil.
  destruct (decide (None = Some O)) as [|_]; [done|].
  destruct (decide (O ≠ O)) as [|_]; [done|].
  rewrite takeWhile_drop_lookup. cbn [run].
  destruct (Input !! endIndex x) as [ch|] eqn:Hch; [destruct (A ch)|].
  - apply lookup_lt_Some in Hch.
    rewrite bind_singleton.
    destruct (decide (O = O ∧ endIndex (advance x) = endIndex x)) as [[_ ?]|_];
      [simpl in *; lia|].
    rewrite IH by (simpl; lia). cbn zeta.
    change (endIndex (advance x)) with (S (endIndex x)).
    set (n := length (takeWhile A (drop (S (endIndex x)) Input))).
    change (seq 0 (S (S n))) with (O :: seq 1 (S n)).
    rewrite <-(fmap_S_seq 0 (S n)).
    assert (∀ l : list nat, reach (advance x) <$> l = reach x <$> (S <$> l))
      as Hshift.
    { intros l. rewrite <-list_fmap_compose. apply list_fmap_ext.
      intros ? k _. apply reach_advance. }
    destruct greedy.
    + rewrite reverse_cons, fmap_app, Hshift, fmap_reverse. simpl.
      by rewrite reach_0.
    + rewrite fmap_cons, reach_0, Hshift. done.
  - destruct greedy, x; simpl; unfold reach; simpl; by rewrite Nat.add_0_r.
  - destruct greedy, x; simpl; unfold reach; simpl; by rewrite Nat.add_0_r.
Qed.

Lemma run_lazy_star_chars A x :
  run Input (lazy_star (CharSet A)) x =
  reach x <$> seq 0 (S (length (takeWhile A (drop (endIndex x) Input)))).
Proof.
  unfold lazy_star. cbn [run groups].
  rewrite (RepeatMatcher_chars A false) by lia. done.
Qed.

Lemma run_plus_chars A x :
  run Input (plus (CharSet A)) x =
  reach x <$> reverse (seq 1 (length (takeWhile A (drop (endIndex x) Input)))).
Proof.
  unfold plus. cbn [run groups RepeatMatcher]. rewrite resetCaptures_nil.
  destruct (decide (None = Some O)) as [|_]; [done|].
  destruct (decide (1%nat ≠ O)) as [_|]; [|lia].
  rewrite takeWhile_drop_lookup.
  destruct (Input !! endIndex x) as [ch|] eqn:Hch; [destruct (A ch)|]; try done.
  rewrite bind_singleton.
  destruct (decide (1%nat = O ∧ _)) as [[? _]|_]; [done|].
  simpl pred. rewrite (RepeatMatcher_chars A true) by (simpl; lia). cbn zeta.
  change (endIndex (advance x)) with (S (endIndex x)).
  rewrite <-(fmap_S_seq 0), <-(fmap_reverse S), <-list_fmap_compose.
  apply list_fmap_ext. intros ? k _. apply reach_advance.
Qed.
End Runs.

Section FirstSuccess.
Context {A B : Type}.

Lemma list_bind_bind {C} (f : A → list B) (g : B → list C) l :
  (l ≫= f) ≫= g = l ≫= λ a, f a ≫= g.
Proof.
  induction l as [|a l IH]; [done|].
  by rewrite !bind_cons, bind_app, IH.
Qed.

(** The first success of a sequence comes from the first alternative of
    its head that lets its tail succeed. *)
Lemma head_bind_first (f : A → list B) l y :
  head (l ≫= f) = Some y →
  ∃ l1 a l2, l = l1 ++ a :: l2 ∧ Forall (λ b, f b = []) l1 ∧ head (f a) = Some y.
Proof.
  induction l as [|a l IH]; [done|]. rewrite bind_cons.
  destruct (f a) as [|b bs] eqn:Hfa.
  - intros (l1 & a' & l2 & -> & Hl1 & Ha')%IH.
    exists (a :: l1), a', l2. split_and!; [done| |done]. by constructor.
  - intros [= ->]. exists [], a, l. rewrite Hfa. by split_and!.
Qed.

Lemma head_bind_seq (f : nat → list B) y n : ∀ s,
  head (seq s n ≫= f) = Some y →
  ∃ k, (s ≤ k < s + n)%nat ∧ head (f k) = Some y
       ∧ ∀ j, (s ≤ j < k)%nat → f j = [].
Proof.
  induction n as [|n IH]; intros s; [done|]. cbn [seq]. rewrite bind_cons.
  destruct (f s) as [|b bs] eqn:Hfs.
  - intros (k & Hk & Hy & Hbefore)%IH. exists k. split_and!; [lia|lia|done|].
    intros j Hj. destruct (decide (j = s)) as [->|]; [done|]. apply Hbefore. lia.
  - intros [= ->]. exists s. rewrite Hfs. split_and!; [lia|lia|done|]. lia.
Qed.

Lemma filter_Forall_id (P : A → Prop) `{!∀ a, Decision (P a)} l :
  Forall P l → filter P l = l.
Proof.
  induction 1 as [|a l Ha _ IH]; [done|].
  by rewrite filter_cons_True, IH.
Qed.
End FirstSuccess.

Lemma dropWhile_drop {A} (p : A → bool) l :
  dropWhile p l = drop (length (takeWhile p l)) l.
Proof.
  rewrite <-(takeWhile_dropWhile p l) at 3. by rewrite drop_app_length.
Qed.

Lemma take_takeWhile {A} (p : A → bool) l k :
  (k ≤ length (takeWhile p l))%nat → Forall (λ c, p c = true) (take k l).
Proof.
  intros Hk. rewrite <-(takeWhile_dropWhile p l), take_app_le by done.
  apply Forall_take, takeWhile_Forall.
Qed.

Lemma Lang_flagsPart_nil : Lang flagsPart [].
Proof. apply Lang_opt. by left. Qed.

(** What is left of a name and flags after their first code unit is a
    name and flags again. *)
Lemma nameAndFlags_tail c r nm fl :
  nameAndFlags (c :: r) nm fl → ∃ nm' fl', nameAndFlags r nm' fl'.
Proof.
  intros (Heq & Hnm & Hfl). destruct nm as [|d nm].
  - simpl in Heq. subst fl.
    destruct (Lang_flags_cons (c :: r) Hfl) as (c' & t' & fl' & Heq & _ & Ht' & Hfl');
      [done|].
    injection Heq as _ ->. by exists t', fl'.
  - injection Heq as _ ->. exists nm, fl. split_and!; [done| |done].
    by inversion Hnm.
Qed.

Lemma nameAndFlags_drop k : ∀ r nm fl,
  nameAndFlags r nm fl → ∃ nm' fl', nameAndFlags (drop k r) nm' fl'.
Proof.
  induction k as [|k IH]; intros r nm fl Hr; [by exists nm, fl|].
  destruct r as [|c r].
  - exists [], []. split_and!; [done|done|apply Lang_flagsPart_nil].
  - destruct (nameAndFlags_tail _ _ _ _ Hr) as (nm' & fl' & Hr').
    by apply (IH _ nm' fl').
Qed.

Section LineSplit.
Variable input : list N.
Implicit Types (x y z : MatchState).

Lemma lineRest_nameAndFlags x :
  (endIndex x ≤ length input)%nat →
  (∃ y, y ∈ run input lineRest x) ↔
  ∃ nm fl, nameAndFlags (drop (endIndex x) input) nm fl.
Proof.
  intros Hx. rewrite <-(lineRest_words input x Hx). split.
  - intros (y & Hy%run_sound). by exists y.
  - intros (y & Hy). exists y. by apply run_complete.
Qed.

Lemma length_takeWhile_drop (p : N → bool) i :
  takeWhile p (drop i input) ≠ [] →
  (i + length (takeWhile p (drop i input)) ≤ length input)%nat.
Proof.
  intros Hne.
  pose proof (f_equal length (takeWhile_dropWhile p (drop i input))) as Hlen.
  rewrite length_app, length_drop in Hlen.
  destruct (takeWhile p (drop i input)); [done|]. simpl in *. lia.
Qed.

(** The state after the digits of the quantity, when white space follows. *)
Lemma quantity_digits y1 :
  y1 ∈ run input (Group 1 (plus (CharSet isDigit))) start →
  takeWhile isWhiteSpace (drop (endIndex y1) input) ≠ [] →
  ∃ digits, quantity_prefix input = Some digits ∧ endIndex y1 = length digits
            ∧ captures y1 !! 2%nat = None ∧ captures y1 !! 3%nat = None.
Proof.
  intros Hy1%run_sound Hspace. revert Hy1. cbn [Matches].
  intros (z0 & Hdigits & ->). cbn [endIndex captures] in *.
  pose proof (Matches_captures _ _ _ _ 2%nat Hdigits (not_elem_of_nil _)) as H2.
  pose proof (Matches_captures _ _ _ _ 3%nat Hdigits (not_elem_of_nil _)) as H3.
  apply Matches_Lang in Hdigits as (digits & [Hds Hne]%Lang_plus_chars & Hd & He);
    [|done].
  simpl in Hd, He. rewrite drop_0 in Hd.
  destruct (drop (endIndex z0) input) as [|c r] eqn:Hrest; [done|].
  simpl in Hspace. destruct (isWhiteSpace c) eqn:Hc; [|done].
  exists digits. split_and!.
  - rewrite Hd. by apply quantity_prefix_intro.
  - done.
  - by rewrite lookup_insert_ne, H2.
  - by rewrite lookup_insert_ne, H3.
Qed.

(** The match of a line is the first match of the name and the flags
    from the tail of the line. *)
Lemma regexp_first y :
  head (run input regexp start) = Some y →
  ∃ z, (endIndex z ≤ length input)%nat
       ∧ drop (endIndex z) input = lineTail input
       ∧ captures z !! 2%nat = None ∧ captures z !! 3%nat = None
       ∧ head (run input lineRest z) = Some y.
Proof.
  intros Hy. rewrite regexp_matches in Hy.
  assert (filter (λ y, endIndex y ≠ O) (run input quantityPrefix start)
          = run input quantityPrefix start) as Hfilter.
  { apply filter_Forall_id, Forall_forall. intros y' Hy'%run_sound.
    by eapply quantityPrefix_Matches in Hy' as (? & _ & _ & ?). }
  destruct (filter _ _ ≫= run input lineRest) as [|y0 ys] eqn:Htaken.
  - exists start.
    assert (quantity_prefix input = None) as Hnone.
    { destruct (quantity_prefix input) as [digits|] eqn:Hq; [|done].
      destruct (taken_when_possible input digits y Hq) as (y' & Hy');
        [by apply head_elem_of|].
      rewrite Htaken in Hy'. by apply elem_of_nil in Hy'. }
    unfold lineTail. rewrite Hnone. split_and!; try done. simpl. lia.
  - assert (head (run input quantityPrefix start ≫= run input lineRest) = Some y)
      as Hhead.
    { rewrite <-Hfilter, Htaken. done. }
    clear Htaken Hy Hfilter. unfold quantityPrefix in Hhead.
    rewrite run_Seq, list_bind_bind in Hhead.
    apply head_bind_first in Hhead as (l1 & y1 & l2 & Hy1 & _ & Hhead).
    assert (y1 ∈ run input (Group 1 (plus (CharSet isDigit))) start) as Hin.
    { rewrite Hy1. apply elem_of_app. right. by left. }
    clear Hy1 l1 l2. rewrite run_plus_chars in Hhead.
    destruct (length (takeWhile isWhiteSpace (drop (endIndex y1) input)))
      as [|M] eqn:HM; [done|].
    assert (takeWhile isWhiteSpace (drop (endIndex y1) input) ≠ []) as Hne.
    { intros Hnil. by rewrite Hnil in HM. }
    destruct (quantity_digits y1 Hin Hne) as (digits & Hq & He1 & Hc2 & Hc3).
    pose proof (length_takeWhile_drop isWhiteSpace _ Hne) as Hbound.
    rewrite HM in Hbound.
    assert (∃ y', y' ∈ run input lineRest (reach y1 (S M))) as [y' Hy'].
    { apply head_elem_of, list_elem_of_bind in Hhead as (z & Hyz & Hz).
      apply list_elem_of_fmap in Hz as (m & -> & Hm%elem_of_reverse%elem_of_seq).
      apply lineRest_nameAndFlags; [simpl; lia|].
      assert (∃ nm fl, nameAndFlags (drop (endIndex (reach y1 m)) input) nm fl)
        as (nm & fl & Hnf).
      { apply lineRest_nameAndFlags; [simpl; lia|]. by exists y. }
      destruct (nameAndFlags_drop (S M - m) _ _ _ Hnf) as (nm' & fl' & Hnf').
      exists nm', fl'. rewrite drop_drop in Hnf'. simpl in *.
      by replace (endIndex y1 + m + (S M - m))%nat with (endIndex y1 + S M)%nat
        in Hnf' by lia. }
    rewrite seq_S, reverse_snoc, fmap_cons, bind_cons in Hhead.
    change (1 + M)%nat with (S M) in Hhead.
    destruct (run input lineRest (reach y1 (S M))) as [|y'' ys'] eqn:Hrun;
      [by apply elem_of_nil in Hy'|].
    simpl in Hhead. injection Hhead as ->.
    exists (reach y1 (S M)). split_and!; try done.
    + unfold lineTail. rewrite Hq, dropWhile_drop, drop_drop, <-He1, HM. done.
    + by rewrite Hrun.
Qed.

(** The matches of the name and the flags from [z], in priority order:
    those with the shortest name first. *)
Lemma run_lineRest z :
  run input lineRest z =
  seq 0 (S (length (takeWhile isDot (drop (endIndex z) input))))
    ≫= λ k, run input (flagsPart ⋅ AssertEnd) (named input z k).
Proof.
  unfold lineRest. rewrite run_Seq, run_Group, run_lazy_star_chars.
  rewrite list_fmap_bind, list_bind_bind. apply list_bind_ext; [|done].
  intros k. unfold compose. by rewrite bind_singleton.
Qed.

Lemma Iter_opt (R : MatchState → MatchState → Prop) parens x y :
  Iter R parens 0 (Some 1%nat) x y →
  y = x ∨ (R (resetCaptures parens x) y ∧ endIndex y ≠ endIndex x).
Proof.
  inversion 1 as [|? ? ? y2 ? _ Hbody Hmoved Hrest]; subst; [by left|].
  right. simpl in Hrest.
  inversion Hrest as [|? ? ? ? ? Hmax]; subst; [|done].
  split; [done|]. intros ?. by apply Hmoved.
Qed.

(** The first match of a line: the name is the shortest start of the tail
    of the line that flag tokens follow to the end, and group 3 holds
    these flag tokens when there are some. *)
Lemma regexp_parts y :
  head (run input regexp start) = Some y →
  ∃ k, (k ≤ length (takeWhile isDot (lineTail input)))%nat
       ∧ captures y !! 2%nat = Some (take k (lineTail input))
       ∧ Lang flagsPart (drop k (lineTail input))
       ∧ (∀ j, (j < k)%nat → ¬ Lang flagsPart (drop j (lineTail input)))
       ∧ captures y !! 3%nat =
         (if decide (drop k (lineTail input) = []) then None
          else Some (drop k (lineTail input))).
Proof.
  intros (z & Hz & Htail & Hc2 & Hc3 & Hhead)%regexp_first.
  rewrite run_lineRest, Htail in Hhead.
  apply head_bind_seq in Hhead as (k & Hk & Hy & Hbefore).
  assert (length (takeWhile isDot (lineTail input)) ≤ length (lineTail input))%nat
    as Hdots.
  { pose proof (f_equal length (takeWhile_dropWhile isDot (lineTail input))) as Hl.
    rewrite length_app in Hl. lia. }
  assert (length (lineTail input) = length input - endIndex z)%nat as Hlen.
  { by rewrite <-Htail, length_drop. }
  assert (∀ j, drop (endIndex (named input z j)) input = drop j (lineTail input))
    as Hdrop.
  { intros j. simpl. by rewrite <-Htail, drop_drop. }
  exists k. split; [lia|].
  apply head_elem_of, run_sound in Hy. revert Hy. cbn [Matches].
  intros (y' & Hflags & Hend & ->).
  pose proof Hflags as Hcap2%(Matches_captures _ _ _ _ 2%nat); [|simpl; solve_notin].
  pose proof Hflags as (fl & Hfl & Hd & _)%Matches_Lang; [|done].
  rewrite Hdrop, Hend, drop_all, app_nil_r in Hd. subst fl.
  split_and!.
  - rewrite Hcap2. simpl. rewrite lookup_insert_eq. f_equal. unfold substring.
    rewrite Htail. f_equal. lia.
  - done.
  - intros j Hj Hlang.
    destruct (Lang_Matches input flagsPart _ (named input z j) [] I Hlang)
      as (y2 & Hy2 & He2).
    { by rewrite app_nil_r. }
    assert (y2 ∈ run input (flagsPart ⋅ AssertEnd) (named input z j)) as Hin.
    { apply run_complete; [simpl; lia|]. cbn [Matches]. exists y2.
      split_and!; [done| |done].
      rewrite He2, length_drop. simpl. lia. }
    rewrite Hbefore in Hin by lia. by apply elem_of_nil in Hin.
  - revert Hflags. unfold flagsPart, opt. cbn [Matches].
    intros [->|[Hgroup Hmoved]]%Iter_opt.
    + rewrite decide_True by (by rewrite <-Hdrop, Hend, drop_all).
      unfold named. simpl. by rewrite lookup_insert_ne, Hc3.
    + revert Hgroup. cbn [Matches]. intros (z3 & _ & ->). simpl in *.
      rewrite lookup_insert_eq.
      assert (drop k (lineTail input) ≠ []) as Hne.
      { intros Hnil%(f_equal length). rewrite length_drop in Hnil. simpl in Hnil.
        lia. }
      rewrite decide_False by done. f_equal. unfold substring.
      rewrite <-Htail, drop_drop. apply take_ge. rewrite length_drop. lia.
Qed.
End LineSplit.

Lemma parseString_first input card :
  parseString input = Some card →
  ∃ y, head (run input regexp start) = Some y
       ∧ name card = default [] (captures y !! 2%nat)
       ∧ language card = Map_get (parseFlags (captures y !! 3%nat)) (js "l")
       ∧ customFlags card = delete (js "l") (parseFlags (captures y !! 3%nat)).
Proof.
  rewrite parseString_head.
  destruct (head (run input regexp start)) as [y|]; [|done].
  intros [= <-]. by exists y.
Qed.

Lemma lineTail_suffix input : ∃ k, lineTail input = drop k input.
Proof.
  unfold lineTail. destruct (quantity_prefix input) as [digits|].
  - rewrite dropWhile_drop, drop_drop. by eexists.
  - by exists O.
Qed.

(** A line whose tail is a name and flags has a match. *)
Lemma regexp_accepts input nm fl :
  nameAndFlags (lineTail input) nm fl →
  is_Some (head (run input regexp start)).
Proof.
  intros Hnf.
  assert (∃ y, y ∈ run input regexp start) as [y Hy].
  { rewrite regexp_matches. unfold lineTail in Hnf.
    destruct (quantity_prefix input) as [digits|] eqn:Hq.
    - apply quantity_prefix_Some in Hq as (Hne & Hds & c & r & Hinput & Hc).
      assert (drop (length digits) input = c :: r) as Hrest.
      { by rewrite Hinput, drop_app_length. }
      rewrite Hrest in Hnf.
      set (ws := takeWhile isWhiteSpace (c :: r)) in *.
      assert (ws ≠ []) as Hws.
      { subst ws. simpl. by rewrite Hc. }
      destruct (Lang_Matches input quantityPrefix (digits ++ ws) start
                  (dropWhile isWhiteSpace (c :: r))) as (yq & Hyq & He); [done| |  |].
      { apply Lang_app; apply Lang_plus_chars; split; try done.
        apply takeWhile_Forall. }
      { change (drop (endIndex start) input) with input.
        rewrite <-(assoc_L (++)). subst ws. by rewrite takeWhile_dropWhile. }
      simpl in He.
      assert (drop (endIndex yq) input = dropWhile isWhiteSpace (c :: r)) as Hdrop.
      { rewrite He, Hinput, length_app, <-drop_drop, drop_app_length.
        subst ws. by rewrite <-dropWhile_drop. }
      assert (endIndex yq ≤ length input)%nat as Hbound.
      { rewrite He, Hinput, !length_app.
        pose proof (f_equal length (takeWhile_dropWhile isWhiteSpace (c :: r))) as Hl.
        rewrite length_app in Hl. fold ws in Hl. lia. }
      destruct (proj2 (lineRest_nameAndFlags input yq Hbound)) as [y Hy].
      { exists nm, fl. by rewrite Hdrop. }
      exists y. apply elem_of_app. left. apply list_elem_of_bind. exists yq.
      split; [done|]. apply list_elem_of_filter. split.
      + rewrite He, length_app. destruct digits; [done|]. simpl. lia.
      + apply run_complete; [simpl; lia|done].
    - destruct (proj2 (lineRest_nameAndFlags input start (Nat.le_0_l _))) as [y Hy].
      { exists nm, fl. by rewrite drop_0. }
      exists y. apply elem_of_app. by right. }
  destruct (run input regexp start); [by apply elem_of_nil in Hy|]. by eexists.
Qed.

(** X14: [parseString] takes as the name the shortest start of the tail
    of the line (what follows the quantity and all the white space after
    it) that is followed to the end of the line by flag tokens only.  The
    name holds no line terminator, and nothing of the tail is dropped: it
    is the name followed by the flag tokens. *)
Theorem parseString_name input card :
  parseString input = Some card →
  nameAndFlags (lineTail input) (name card)
    (drop (length (name card)) (lineTail input))
  ∧ ∀ nm fl, lineTail input = nm ++ fl → Lang flagsPart fl →
             (length (name card) ≤ length nm)%nat.
Proof.
  intros (y & Hy & Hname & _)%parseString_first.
  apply regexp_parts in Hy as (k & Hk & Hc2 & Hfl & Hshortest & _).
  rewrite Hc2 in Hname. simpl in Hname. rewrite Hname.
  assert (length (take k (lineTail input)) = k) as Hlen.
  { rewrite length_take.
    pose proof (f_equal length (takeWhile_dropWhile isDot (lineTail input))) as Hl.
    rewrite length_app in Hl. lia. }
  rewrite Hlen. split.
  - split_and!; [by rewrite take_drop|by apply take_takeWhile|done].
  - intros nm fl Htail Hflags.
    destruct (decide (length nm < k)%nat) as [Hlt|]; [|lia].
    destruct (Hshortest _ Hlt). by rewrite Htail, drop_app_length.
Qed.

(** X15: [parseString] accepts a line exactly when its tail is a run
    without line terminator followed by flag tokens. *)
Theorem parseString_accepts input :
  is_Some (parseString input) ↔ ∃ nm fl, nameAndFlags (lineTail input) nm fl.
Proof.
  split.
  - intros [card (y & Hy & _)%parseString_first].
    apply regexp_parts in Hy as (k & Hk & _ & Hfl & _).
    exists (take k (lineTail input)), (drop k (lineTail input)).
    split_and!; [by rewrite take_drop|by apply take_takeWhile|done].
  - intros (nm & fl & Hnf). rewrite parseString_head.
    by destruct (regexp_accepts _ _ _ Hnf) as [y ->].
Qed.

(** X16: every line without line terminator is accepted. *)
Theorem parseString_single_line input :
  Forall (λ c, isDot c = true) input → is_Some (parseString input).
Proof.
  intros Hline. rewrite parseString_head.
  destruct (regexp_accepts input (lineTail input) []) as [y ->]; [|done].
  split_and!; [by rewrite app_nil_r| |apply Lang_flagsPart_nil].
  destruct (lineTail_suffix input) as [k ->]. by apply Forall_drop.
Qed.


(** A line without white space has one match: no quantity, the whole
    line as the name. *)
Lemma regexp_word input :
  Forall (λ c, isWhiteSpace c = false) input →
  ∃ y, head (run input regexp start) = Some y
       ∧ captures y !! 1%nat = None ∧ captures y !! 2%nat = Some input.
Proof.
  intros Hword.
  assert (quantity_prefix input = None) as Hq.
  { unfold quantity_prefix.
    pose proof (takeWhile_dropWhile isDigit input) as Hsplit.
    destruct (takeWhile isDigit input) as [|d ds]; [done|].
    destruct (dropWhile isDigit input) as [|c r]; [done|].
    destruct (isWhiteSpace c) eqn:Hc; [|done].
    rewrite <-Hsplit in Hword. apply Forall_app in Hword as [_ Hword].
    inversion Hword; congruence. }
  assert (lineTail input = input) as Htail.
  { unfold lineTail. by rewrite Hq. }
  destruct (regexp_accepts input input []) as [y Hy].
  { rewrite Htail. split_and!; [by rewrite app_nil_r| |apply Lang_flagsPart_nil].
    eapply Forall_impl; [done|]. intros c Hc. apply isNonSpace_isDot.
    unfold isNonSpace. by rewrite Hc. }
  exists y. split_and!; [done|by rewrite (regexp_group1 input y Hy)|].
  destruct (regexp_parts input y Hy) as (k & _ & -> & Hfl & _).
  rewrite Htail in *. f_equal.
  destruct (decide (drop k input = [])) as [Hnil|Hne].
  { rewrite <-(take_drop k input) at 2. by rewrite Hnil, app_nil_r. }
  destruct (Lang_flags_cons _ Hfl Hne) as (c & t & fl & Heq & Hc & _).
  assert (c ∈ input) as Hin.
  { rewrite <-(take_drop k input), Heq. apply elem_of_app. right. by left. }
  rewrite Forall_forall in Hword. specialize (Hword c Hin). congruence.
Qed.

(** X18: a line without white space is accepted as it is: the name is the
    line and the quantity is 1, also when the line starts with digits. *)
Theorem parseString_word input :
  Forall (λ c, isWhiteSpace c = false) input →
  ∃ card, parseString input = Some card
          ∧ name card = input ∧ quantity card = Finite 1.
Proof.
  intros (y & Hy & Hc1 & Hc2)%regexp_word.
  rewrite parseString_head, Hy. eexists. split; [done|]. simpl.
  by rewrite Hc1, Hc2.
Qed.

Lemma Forall_join (P : N → Prop) sep ps :
  P sep → Forall P (concat ps) → Forall P (join sep ps).
Proof.
  intros Hsep. induction ps as [|p [|p' ps] IH]; simpl; [done| |].
  - by rewrite app_nil_r.
  - intros [Hp Hps]%Forall_app. apply Forall_app. split; [done|].
    constructor; [done|]. by apply IH.
Qed.

Lemma uuid_shape_word s :
  uuid_shape s = true → Forall (λ c, isWhiteSpace c = false) s.
Proof.
  unfold uuid_shape. intros [_ Hhex%forallb_Forall]%andb_true_iff.
  rewrite <-(join_split (cu "-") s). apply Forall_join; [by_computation|].
  eapply Forall_impl; [done|]. intros c Hc. simpl in Hc.
  destruct (isWhiteSpace c) eqn:Hspace; [|done]. exfalso. charclass.
Qed.

(** X19: a line that is an identifier is parsed and looked up as such:
    [parseString] returns a card with the line as its name, and [getCard]
    requests this card at the direct endpoint of the identifier. *)
Theorem parseString_getCard_uuid {Json T} `{!Remote Json T} input :
  test input uuidRegexp = true →
  ∃ card, parseString input = Some card
          ∧ trace <$> getCard (Json:=Json) (T:=T) card
            = Return [Request (SCRYFALL_API_URI ++ js "/cards/" ++ input)].
Proof.
  intros Huuid. pose proof Huuid as Hshape. rewrite test_uuidRegexp in Hshape.
  destruct (regexp_word input (uuid_shape_word _ Hshape)) as (y & Hy & _ & Hc2).
  rewrite parseString_head, Hy. eexists. split; [done|].
  rewrite getCard_requestURI. unfold requestURI. simpl name. rewrite Hc2. simpl.
  rewrite Huuid. simpl. by rewrite callApi_identity.
Qed.

(** ** Examples *)


Lemma getCardsBatch_first_fault_witness :
  settled <$> getCardsBatch (T:=nat) [1; 0]%nat [stormCrow; blackLotus]
  = Return (Rejected (FetchError 7)).
Proof.
  refine (getCardsBatch_first_fault (T:=nat) [1]%nat 0%nat [] [stormCrow; blackLotus]
            [Rejected (FetchError 7); Fulfilled (Some (MockCard 2))] (FetchError 7)
            _ _ _ _).
  - repeat constructor; by_computation.
  - by_decision.
  - repeat constructor. by exists (Some (MockCard 2)).
  - reflexivity.
Defined.

Lemma getCardsBatch_throws_witness :
  getCardsBatch (T:=nat) [0; 1; 2]%nat [blackLotus; brokenName; commandTower]
  = Throw URIError.
Proof.
  refine (getCardsBatch_throws (T:=nat) [0; 1; 2]%nat [blackLotus] brokenName
            [commandTower] URIError _ _).
  - repeat constructor.
    exists (js "https://api.scryfall.com/cards/named/?fuzzy=Black%20Lotus").
    by_computation.
  - by_computation.
Defined.

Lemma getList_cycle_witness :
  _getListFromApi (H:=loopRemote) 3 (js "/loop") (recording length)
  = mkPromise [Request (js "/loop"); Request (js "/loop"); Request (js "/loop")]
              Unsettled.
Proof.
  refine (getList_cycle (Remote0:=loopRemote) 3 (js "/loop") loopPage _
            (recording length) _ _ _).
  - eexists. split_and!; by_computation.
  - by_computation.
  - by_computation.
Defined.

Lemma getCardPrintsFromCard_assembles_witness :
  getCardPrintsFromCard 3 (MockCard 1) false true
  = mkPromise [Request (js "/list/1"); Request (js "/list/2"); Request (js "/list/3")]
              (Fulfilled (Some [2; 4]%nat)).
Proof.
  refine (getCardPrintsFromCard_assembles 3 (MockCard 1) false true
            [listPage1; listPage2] (js "/list/3") listPage3
            follows_list answers_list _ _).
  - left. by_computation.
  - simpl. lia.
Defined.


Lemma getCardsAndDo_completes_witness :
  settled <$> getCardsAndDo id [1; 0]%nat [commandTower; blackLotus] noting
  = Return (Fulfilled [None; None]).
Proof.
  refine (getCardsAndDo_completes id [1; 0]%nat [commandTower; blackLotus]
            [Some (MockCard 1); Some (MockCard 2)] noting _ _ _).
  - by_decision.
  - repeat constructor; by_computation.
  - intros card r. by exists None.
Defined.

Lemma getCardsAndDo_first_fault_witness :
  settled <$> getCardsAndDo id [1; 0]%nat [stormCrow; blackLotus] noting
  = Return (Rejected (FetchError 7)).
Proof.
  refine (getCardsAndDo_first_fault id [1]%nat 0%nat [] [stormCrow; blackLotus]
            [js "https://api.scryfall.com/cards/named/?fuzzy=Storm%20Crow";
             js "https://api.scryfall.com/cards/named/?fuzzy=Black%20Lotus"]
            noting (FetchError 7) _ _ _ _).
  - repeat constructor; by_computation.
  - by_decision.
  - repeat constructor. exists None. by_computation.
  - by_computation.
Defined.


Lemma getCard_fuzzy_safe_witness :
  ∃ escaped,
    js "https://api.scryfall.com/cards/named/?fuzzy=Black%20Lotus"
    = SCRYFALL_API_URI ++ js "/cards/named/?fuzzy=" ++ escaped
    ∧ Forall (λ c, isUriSafe c = true) escaped.
Proof.
  refine (getCard_fuzzy_safe blackLotus _ _ _ _ _).
  - by_decision.
  - by_computation.
  - by_computation.
  - by_computation.
Defined.

Lemma uuid_not_codeNumber_witness :
  test (js "0123abcd-0123-4567-89ab-0123456789ab") codeNumberRegexp = false.
Proof.
  refine (uuid_not_codeNumber (js "0123abcd-0123-4567-89ab-0123456789ab") _).
  by_computation.
Defined.

Lemma parseString_name_witness :
  let card := mkParsedCard (js "Storm Crow") (Finite 2) None {[ js "foil" := None ]} in
  parseString (js "2  Storm Crow -foil") = Some card
  ∧ nameAndFlags (lineTail (js "2  Storm Crow -foil")) (name card)
      (drop (length (name card)) (lineTail (js "2  Storm Crow -foil")))
  ∧ ∀ nm fl, lineTail (js "2  Storm Crow -foil") = nm ++ fl → Lang flagsPart fl →
             (length (name card) ≤ length nm)%nat.
Proof.
  intros card.
  assert (parseString (js "2  Storm Crow -foil") = Some card) as Hparsed
    by by_computation.
  split; [exact Hparsed|]. exact (parseString_name _ _ Hparsed).
Defined.

Lemma parseString_single_line_witness :
  is_Some (parseString (js "4 Lightning Bolt -l=de")).
Proof.
  refine (parseString_single_line (js "4 Lightning Bolt -l=de") _). by_decision.
Defined.


Lemma getCardPrintsAndDo_first_fault_witness :
  settled <$> getCardPrintsAndDo id 3 [0; 1]%nat [commandTower; blackLotus]
                notingPrints false true
  = Return (Rejected (FetchError 7)).
Proof.
  refine (getCardPrintsAndDo_first_fault id 3 [0]%nat 1%nat []
            [commandTower; blackLotus]
            [js "https://api.scryfall.com/cards/m3c/331/fr";
             js "https://api.scryfall.com/cards/named/?fuzzy=Black%20Lotus"]
            notingPrints false true (FetchError 7) _ _ _ _).
  - repeat constructor; by_computation.
  - by_decision.
  - repeat constructor. exists None. by_computation.
  - by_computation.
Defined.

Lemma parseString_word_witness :
  ∃ card, parseString (js "4x4") = Some card
          ∧ name card = js "4x4" ∧ quantity card = Finite 1.
Proof.
  refine (parseString_word (js "4x4") _). by_decision.
Defined.

Lemma parseString_getCard_uuid_witness :
  ∃ card,
    parseString (js "56ebc372-aabd-4174-a943-c7bf59e5028d") = Some card
    ∧ trace <$> getCard (T:=nat) card
      = Return [Request (SCRYFALL_API_URI ++ js "/cards/"
                         ++ js "56ebc372-aabd-4174-a943-c7bf59e5028d")].
Proof.
  refine (parseString_getCard_uuid (T:=nat)
            (js "56ebc372-aabd-4174-a943-c7bf59e5028d") _).
  by_computation.
Defined.
